(** * Failed-log extraction watcher: a shallow embedding and its properties

    The development follows [Observer_v3.py] (the debounced, stability-probing
    watcher), with the predicate of the two earlier versions
    ([Observer_v2.py], [Observer.py]) beside it.

    Conventions of the embedding.
    - Python [bytes] are [list byte]; [bytes.lower] touches only A-Z.
    - Python [str] is [string].  [str.lower] is modelled on A-Z; no text
      with a character outside ASCII lowercases to [".log"] or [".zip"], so
      the suffix tests agree with Python on every name.
    - [pathlib] paths are POSIX paths: an anchor flag and the list of parts.
    - Time is counted in milliseconds ([Z]): [1.0] s is [1000], [0.1] s is
      [100].  [time.sleep d] advances the clock by [d]; the other
      operations take no time.
    - A raised exception is a value ([Raise e]); the generator
      [extract_failed_logs] is modelled as driven to exhaustion, which is what
      both of its callers do ([for _ in ...: pass] and [list(...)]).
    - Creating directories and writing a destination file are taken to
      succeed; opening an archive and reading a member may raise. *)

From Stdlib Require Import Strings.Byte Strings.Ascii.
From stdpp Require Import gmap strings list fin_maps.

Local Open Scope string_scope.
Local Open Scope list_scope.

(* ===================================================================== *)
(** ** Bytes *)
(* ===================================================================== *)

Abbreviation bytes := (list byte).

(** [b"..."] literals. *)
Definition b (s : string) : bytes := String.list_byte_of_string s.

(** One byte of [bytes.lower()]: 0x41..0x5A are moved up by 0x20. *)
Definition lower_byte (c : byte) : byte :=
  let n := Byte.to_N c in
  if ((65 <=? n) && (n <=? 90))%N then
    match Byte.of_N (n + 32) with Some c' => c' | None => c end
  else c.

Definition bytes_lower (buf : bytes) : bytes := map lower_byte buf.

(** [needle] is a prefix of [hay]. *)
Fixpoint bytes_startswith (needle hay : bytes) : bool :=
  match needle, hay with
  | [], _ => true
  | _ :: _, [] => false
  | n :: ns, h :: hs => Byte.eqb n h && bytes_startswith ns hs
  end.

(** [needle in hay] for bytes objects: a contiguous occurrence. *)
Fixpoint bytes_in (needle hay : bytes) : bool :=
  bytes_startswith needle hay ||
  match hay with
  | [] => false
  | _ :: hs => bytes_in needle hs
  end.

(* ===================================================================== *)
(** ** Strings *)
(* ===================================================================== *)

Definition lower_ascii (c : ascii) : ascii :=
  let n := N_of_ascii c in
  if ((65 <=? n) && (n <=? 90))%N then ascii_of_N (n + 32) else c.

(** [str.lower()]. *)
Fixpoint lower (s : string) : string :=
  match s with
  | EmptyString => EmptyString
  | String c s' => String (lower_ascii c) (lower s')
  end.

(** [s.endswith(suf)]: some tail of [s] is [suf]. *)
Fixpoint endswith (s suf : string) : bool :=
  String.eqb s suf ||
  match s with
  | EmptyString => false
  | String _ s' => endswith s' suf
  end.

Definition slash : ascii := "/"%char.
Definition dot : ascii := "."%char.

(** [s.split("/")]. *)
Fixpoint split_slash (s : string) : list string :=
  match s with
  | EmptyString => [EmptyString]
  | String c s' =>
      if Ascii.eqb c slash then EmptyString :: split_slash s'
      else match split_slash s' with
           | [] => [String c EmptyString]
           | hd :: tl => String c hd :: tl
           end
  end.

(** [s.rfind(".")] as the text from the last dot on, when there is a dot:
    [Some (i, s[i:])]. *)
Fixpoint rfind_dot (s : string) : option (nat * string) :=
  match s with
  | EmptyString => None
  | String c s' =>
      match rfind_dot s' with
      | Some (i, tl) => Some (S i, tl)
      | None => if Ascii.eqb c dot then Some (0, s) else None
      end
  end.

(* ===================================================================== *)
(** ** pathlib (PurePosixPath) *)
(* ===================================================================== *)

Record Path := mkPath { anchor : bool; parts : list string }.

#[global] Instance Path_eq_dec : EqDecision Path.
Proof. solve_decision. Defined.

#[global] Instance Path_countable : Countable Path.
Proof.
  refine (inj_countable' (fun p => (anchor p, parts p))
            (fun t => mkPath t.1 t.2) _).
  by intros [].
Defined.

(** The parts of a path string: empty and ["."] components are dropped,
    [".."] is kept. *)
Definition keep_part (c : string) : bool :=
  negb (String.eqb c EmptyString) && negb (String.eqb c ".").

Definition parse_parts (s : string) : list string :=
  filter (fun c => Is_true (keep_part c)) (split_slash s).

Definition is_absolute_str (s : string) : bool :=
  match s with
  | String c _ => Ascii.eqb c slash
  | EmptyString => false
  end.

(** [Path(s)]. *)
Definition Path_of (s : string) : Path :=
  mkPath (is_absolute_str s) (parse_parts s).

(** [p.name]: the final part, or the empty string. *)
Definition name (p : Path) : string := List.last (parts p) EmptyString.

(** [p.parent]. *)
Definition parent (p : Path) : Path :=
  mkPath (anchor p) (removelast (parts p)).

(** [p / s]: an absolute right operand replaces [p]. *)
Definition truediv (p : Path) (s : string) : Path :=
  if is_absolute_str s then Path_of s
  else mkPath (anchor p) (parts p ++ parse_parts s).

Notation "p // s" := (truediv p s) (at level 40, left associativity).

(** [p.suffix]. *)
Definition suffix (p : Path) : string :=
  let nm := name p in
  match rfind_dot nm with
  | Some (i, tl) =>
      if (0 <? i)%nat && (i <? String.length nm - 1)%nat then tl
      else EmptyString
  | None => EmptyString
  end.

Fixpoint has_slash (s : string) : bool :=
  match s with
  | EmptyString => false
  | String c s' => Ascii.eqb c slash || has_slash s'
  end.

(** A single ordinary path component: not empty, not ["."], not [".."], and
    without a separator. *)
Definition plain_component (c : string) : bool :=
  negb (String.eqb c EmptyString) && negb (String.eqb c ".") &&
  negb (String.eqb c "..") && negb (has_slash c).

(** Lexical confinement: [p] lies strictly below [root], through plain
    components only. *)
Definition strictly_inside (root p : Path) : Prop :=
  anchor p = anchor root ∧
  ∃ rest, parts p = parts root ++ rest ∧ rest ≠ [] ∧
          Forall (fun c => plain_component c = true) rest.

(* ===================================================================== *)
(** ** Archives, exceptions and the destination tree *)
(* ===================================================================== *)

(** The exceptions the code can meet; all are subclasses of [Exception]. *)
Inductive exn :=
| FileNotFoundError
| BadZipFile
| RuntimeError
| NotImplementedError.

Inductive result (A : Type) :=
| Ok (a : A)
| Raise (e : exn).
Arguments Ok {A} a.
Arguments Raise {A} e.

(** One entry of [z.infolist()].  [read] is what [z.open(member)] followed by
    [f.read()] gives: the member's bytes, or the exception raised for an
    entry that cannot be read (bad CRC, encrypted, unsupported method). *)
Record ZipInfo := mkZipInfo {
  filename : string;
  is_dir : bool;
  read : result bytes
}.

(** What lies at an archive path: a file that is not a zip container, or a
    container with its entry table.  A path absent from the map is a missing
    file. *)
Inductive ArchiveFile :=
| NotAZip
| Zip (infolist : list ZipInfo).

(** [zipfile.ZipFile(archive_path, "r")]. *)
Definition ZipFile (disk : gmap Path ArchiveFile) (archive_path : Path)
  : result (list ZipInfo) :=
  match disk !! archive_path with
  | None => Raise FileNotFoundError
  | Some NotAZip => Raise BadZipFile
  | Some (Zip infolist) => Ok infolist
  end.

(** The destination tree: directories, file contents, and the history of
    [write_bytes] calls (oldest first). *)
Record FS := mkFS {
  dirs : gset Path;
  files : gmap Path bytes;
  written : list (Path * bytes)
}.

Definition ancestors_or_self (p : Path) : list Path :=
  map (fun k => mkPath (anchor p) (take k (parts p)))
      (seq 1 (length (parts p))).

(** [p.mkdir(parents=True, exist_ok=True)]. *)
Definition mkdir_parents (p : Path) (fs : FS) : FS :=
  mkFS (dirs fs ∪ list_to_set (ancestors_or_self p)) (files fs) (written fs).

(** [p.write_bytes(buf)]: the file is created or overwritten. *)
Definition write_bytes (p : Path) (buf : bytes) (fs : FS) : FS :=
  mkFS (dirs fs) (<[p := buf]> (files fs)) (written fs ++ [(p, buf)]).

(** A generator run to exhaustion: the tree it leaves, the values it
    yielded, and the exception that ended it, if any. *)
Record Outcome := mkOutcome {
  fs_after : FS;
  yielded : list Path;
  raised : option exn
}.

Definition yield (p : Path) (o : Outcome) : Outcome :=
  mkOutcome (fs_after o) (p :: yielded o) (raised o).

(* ===================================================================== *)
(** ** extract_failed_logs *)
(* ===================================================================== *)

Section Extraction.
(** The three source versions share the body of [extract_failed_logs] and
    differ in [_contains_fail]. *)
Variable contains_fail : bytes → bool.

(** The [for member in z.infolist()] loop. *)
Fixpoint scan_members (members : list ZipInfo) (out_dir : Path) (fs : FS)
  : Outcome :=
  match members with
  | [] => mkOutcome fs [] None
  | member :: rest =>
      if negb (endswith (lower (filename member)) ".log") || is_dir member
      then scan_members rest out_dir fs
      else
        match read member with
        | Raise e => mkOutcome fs [] (Some e)
        | Ok buf =>
            if contains_fail buf then
              let out_path := out_dir // name (Path_of (filename member)) in
              let fs := mkdir_parents (parent out_path) fs in
              let fs := write_bytes out_path buf fs in
              yield out_path (scan_members rest out_dir fs)
            else scan_members rest out_dir fs
        end
  end.

Definition extract_failed_logs_with (disk : gmap Path ArchiveFile)
    (archive_path out_dir : Path) (fs : FS) : Outcome :=
  let fs := mkdir_parents out_dir fs in
  match ZipFile disk archive_path with
  | Raise e => mkOutcome fs [] (Some e)
  | Ok members => scan_members members out_dir fs
  end.

(** *** The reading of the loop member by member *)

(** The member passes the suffix and directory filter. *)
Definition scanned (m : ZipInfo) : bool :=
  endswith (lower (filename m)) ".log" && negb (is_dir m).

(** The artifact a member gives rise to, if any: destination and content. *)
Definition artifact_of (out_dir : Path) (m : ZipInfo)
  : option (Path * bytes) :=
  if scanned m then
    match read m with
    | Ok buf =>
        if contains_fail buf
        then Some (out_dir // name (Path_of (filename m)), buf)
        else None
    | Raise _ => None
    end
  else None.

(** The members the loop gets to: all of them up to the first scanned member
    whose read raises. *)
Fixpoint reached (members : list ZipInfo) : list ZipInfo :=
  match members with
  | [] => []
  | m :: rest =>
      if scanned m then
        match read m with
        | Raise _ => []
        | Ok _ => m :: reached rest
        end
      else m :: reached rest
  end.


(** The file contents after a sequence of writes, later writes winning. *)
Definition apply_writes (ws : list (Path * bytes)) (fm : gmap Path bytes)
  : gmap Path bytes :=
  foldl (fun acc w => <[w.1 := w.2]> acc) fm ws.

End Extraction.

(** The daemon's view of the world outside the handler: the destination tree
    and what was printed on standard error (archive and exception). *)
Record Daemon := mkDaemon {
  tree : FS;
  stderr : list (Path * exn)
}.

(** A pool worker taking tasks off the queue one after the other.  The
    executor stores an exception that escapes a task in the task's future and
    goes on with the next task; the list gives, per task, what escaped. *)
Fixpoint worker (task : Path → Daemon → Daemon * option exn)
    (queue : list Path) (d : Daemon) : Daemon * list (option exn) :=
  match queue with
  | [] => (d, [])
  | archive :: rest =>
      let '(d1, escaped) := task archive d in
      let '(d2, futures) := worker task rest d1 in
      (d2, escaped :: futures)
  end.

(* ===================================================================== *)
(** ** The stability probe and the event handler of Observer_v3.py *)
(* ===================================================================== *)

(** What [p.exists()] and [p.stat().st_size] observe for one path at each
    clock value: [None] when the file is not there. *)
Abbreviation History := (Z → option Z).

(** The [while time.time() - start < timeout] loop.  [fuel] bounds the number
    of iterations; [None] is a loop that has not ended within it.  The result
    carries the clock value at the return. *)
Fixpoint wait_loop (fuel : nat) (p : History) (timeout poll_interval : Z)
    (size start now : Z) : option (bool * Z) :=
  match fuel with
  | O => None
  | S fuel =>
      if now - start <? timeout then
        let now := now + poll_interval in
        match p now with
        | None => Some (false, now)
        | Some st_size =>
            if negb (st_size =? size)
            then wait_loop fuel p timeout poll_interval st_size now now
            else wait_loop fuel p timeout poll_interval size start now
        end
      else Some (true, now)
  end%Z.

Definition _wait_until_stable (fuel : nat) (p : History)
    (timeout poll_interval : Z) (now : Z) : option (bool * Z) :=
  match p now with
  | None => Some (false, now)
  | Some size => wait_loop fuel p timeout poll_interval size now now
  end.

(** Defaults of [_wait_until_stable]: [timeout = 2.0], [poll_interval = 0.1]. *)
Definition default_timeout : Z := 2000.
Definition default_poll_interval : Z := 100.

(** [ZipEventHandler.DEBOUNCE_SECONDS = 1.0]. *)
Definition DEBOUNCE_SECONDS : Z := 1000.

(** The handler and its executor: the clock, [self._last_processed], the
    calls of [self._executor.submit] so far (oldest first), and the tasks
    submitted and not yet finished. *)
Record State := mkState {
  clock : Z;
  _last_processed : gmap Path Z;
  submitted : list Path;
  in_flight : list Path
}.

Definition _enqueue (fuel : nat) (sizes : Path → History) (archive : Path)
    (st : State) : option State :=
  let now := clock st in
  let last := default 0%Z (_last_processed st !! archive) in
  if (now - last <? DEBOUNCE_SECONDS)%Z then Some st
  else
    match _wait_until_stable fuel (sizes archive)
            default_timeout default_poll_interval now with
    | None => None
    | Some (false, t) =>
        Some (mkState t (_last_processed st) (submitted st) (in_flight st))
    | Some (true, t) =>
        Some (mkState t (<[archive := now]> (_last_processed st))
                (submitted st ++ [archive]) (in_flight st ++ [archive]))
    end.

Definition _handle_event (fuel : nat) (sizes : Path → History)
    (path_str : string) (st : State) : option State :=
  let path := Path_of path_str in
  if negb (String.eqb (lower (suffix path)) ".zip") then Some st
  else _enqueue fuel sizes path st.

Inductive EventKind := Created | Modified | Moved.

Record FileSystemEvent := mkEvent {
  kind : EventKind;
  is_directory : bool;
  src_path : string;
  dest_path : string
}.

Definition on_created (fuel : nat) (sizes : Path → History)
    (event : FileSystemEvent) (st : State) : option State :=
  if is_directory event then Some st
  else _handle_event fuel sizes (src_path event) st.

Definition on_modified (fuel : nat) (sizes : Path → History)
    (event : FileSystemEvent) (st : State) : option State :=
  if is_directory event then Some st
  else _handle_event fuel sizes (src_path event) st.

Definition on_moved (fuel : nat) (sizes : Path → History)
    (event : FileSystemEvent) (st : State) : option State :=
  if is_directory event then Some st
  else _handle_event fuel sizes (dest_path event) st.

(** [FileSystemEventHandler.dispatch]. *)
Definition dispatch (fuel : nat) (sizes : Path → History)
    (event : FileSystemEvent) (st : State) : option State :=
  match kind event with
  | Created => on_created fuel sizes event st
  | Modified => on_modified fuel sizes event st
  | Moved => on_moved fuel sizes event st
  end.

(** What happens around the handler.  [Notify arrival event]: the observer
    thread hands the handler an event that arrived at [arrival]; the thread
    calls the handler for one event at a time, so an event that arrived
    while an earlier call was still running is handled when that call has
    returned.  [Finish archive]: a pool worker finishes a task. *)
Inductive Step :=
| Notify (arrival : Z) (event : FileSystemEvent)
| Finish (archive : Path).

Fixpoint remove_first (archive : Path) (l : list Path) : list Path :=
  match l with
  | [] => []
  | x :: l' => if decide (x = archive) then l' else x :: remove_first archive l'
  end.

Definition step (fuel : nat) (sizes : Path → History) (s : Step) (st : State)
  : option State :=
  match s with
  | Notify arrival event =>
      dispatch fuel sizes event
        (mkState (Z.max (clock st) arrival) (_last_processed st)
           (submitted st) (in_flight st))
  | Finish archive =>
      Some (mkState (clock st) (_last_processed st) (submitted st)
              (remove_first archive (in_flight st)))
  end.

Fixpoint run (fuel : nat) (sizes : Path → History) (steps : list Step)
    (st : State) : option State :=
  match steps with
  | [] => Some st
  | s :: rest =>
      match step fuel sizes s st with
      | None => None
      | Some st' => run fuel sizes rest st'
      end
  end.

(** A handler that has just been constructed, at clock value [t0]. *)
Definition init_state (t0 : Z) : State := mkState t0 ∅ [] [].

(* ===================================================================== *)
(** ** The three source versions *)
(* ===================================================================== *)

Module Observer_v3.

Definition _contains_fail (buf : bytes) : bool :=
  bytes_in (b "fail") (bytes_lower buf).

Definition extract_failed_logs := extract_failed_logs_with _contains_fail.

(** [ZipEventHandler._process_zip]: the [try] around the loop catches every
    [Exception] and prints it with the archive's path.  The second component
    is the exception that escapes the method. *)
Definition _process_zip (disk : gmap Path ArchiveFile) (root_out : Path)
    (archive : Path) (d : Daemon) : Daemon * option exn :=
  let subdir := "fail" in
  let target_dir := root_out // subdir in
  let o := extract_failed_logs disk archive target_dir (tree d) in
  match raised o with
  | None => (mkDaemon (fs_after o) (stderr d), None)
  | Some exc => (mkDaemon (fs_after o) (stderr d ++ [(archive, exc)]), None)
  end.

End Observer_v3.

Module Observer_v2.

Definition _contains_fail (buf : bytes) : bool :=
  bytes_in (b "fail") (bytes_lower buf).

Definition extract_failed_logs := extract_failed_logs_with _contains_fail.

(** No [try] here: what the generator raises escapes the method. *)
Definition _process_zip (disk : gmap Path ArchiveFile) (root_out : Path)
    (archive : Path) (d : Daemon) : Daemon * option exn :=
  let subdir := name (parent archive) in
  let target_dir := root_out // subdir in
  let o := extract_failed_logs disk archive target_dir (tree d) in
  (mkDaemon (fs_after o) (stderr d), raised o).

End Observer_v2.

Module Observer.

Definition keyword : string := "test failed".

(** [keyword.encode("utf-8") in buf.lower()]; the keyword is ASCII. *)
Definition _contains_fail (buf : bytes) : bool :=
  bytes_in (b keyword) (bytes_lower buf).

(** [archive_path] and [out_dir] are taken as already resolved. *)
Definition extract_failed_logs := extract_failed_logs_with _contains_fail.

End Observer.

(* ===================================================================== *)
(** ** Statement-side definitions *)
(* ===================================================================== *)

(** Case-insensitive containment, as the specification words it: some
    stretch of [buf] is the keyword up to the case of its letters. *)
Definition ci_contains (keyword buf : bytes) : Prop :=
  ∃ pre w post, buf = pre ++ w ++ post ∧ bytes_lower w = keyword.

(** An empty destination tree and a daemon that has printed nothing. *)
Definition empty_fs : FS := mkFS ∅ ∅ [].
Definition fresh_daemon : Daemon := mkDaemon empty_fs [].



(** What processing one archive writes, read off the archive alone. *)
Definition artifacts_of_archive (disk : gmap Path ArchiveFile)
    (root_out archive : Path) : list (Path * bytes) :=
  match disk !! archive with
  | Some (Zip members) =>
      omap (artifact_of Observer_v3._contains_fail (root_out // "fail"))
           (reached members)
  | _ => []
  end.

(** What is known at the head of the probe's loop, entered at [t0]:
    [start] and [now] are poll instants, every poll since [start] saw
    [size], [start] is the entry time or the instant of the last change, and
    the file was there at every poll so far. *)
Definition loop_inv (p : History) (poll_interval t0 size start now : Z)
  : Prop :=
  ∃ k n : Z,
    (0 ≤ k)%Z ∧ (0 ≤ n)%Z ∧
    start = (t0 + k * poll_interval)%Z ∧
    now = (start + n * poll_interval)%Z ∧
    (∀ j, (0 ≤ j ≤ n)%Z → p (start + j * poll_interval)%Z = Some size) ∧
    (k = 0%Z ∨ p (start - poll_interval)%Z ≠ Some size) ∧
    (∀ j, (0 ≤ j ≤ k + n)%Z → p (t0 + j * poll_interval)%Z ≠ None).

(** The probe entered at [t0] answers [True] at [T]: the last [n + 1]
    polls, spread over at least [timeout], all saw the same size, the window
    began at the entry or at the last change of size, and no poll missed the
    file. *)
Definition stable_window (p : History) (timeout poll_interval t0 T : Z)
  : Prop :=
  ∃ size k n : Z,
    (0 ≤ k)%Z ∧ (0 ≤ n)%Z ∧
    T = (t0 + (k + n) * poll_interval)%Z ∧
    (timeout ≤ n * poll_interval)%Z ∧
    (∀ j, (0 ≤ j ≤ n)%Z → p (t0 + (k + j) * poll_interval)%Z = Some size) ∧
    (k = 0%Z ∨ p (t0 + (k - 1) * poll_interval)%Z ≠ Some size) ∧
    (∀ j, (0 ≤ j ≤ k + n)%Z → p (t0 + j * poll_interval)%Z ≠ None).

(** The probe entered at [t0] answers [False] at [T]: a poll instant at
    which the file is not there, every earlier poll having found it. *)
Definition vanished_at (p : History) (poll_interval t0 T : Z) : Prop :=
  ∃ n : Z, (0 ≤ n)%Z ∧ T = (t0 + n * poll_interval)%Z ∧ p T = None ∧
           ∀ j, (0 ≤ j < n)%Z → p (t0 + j * poll_interval)%Z ≠ None.

(** The handler is past every recorded submission by a full stability
    timeout, and the clock is past the first debounce window. *)
Definition settled (st : State) : Prop :=
  (DEBOUNCE_SECONDS ≤ clock st)%Z ∧
  ∀ archive t, _last_processed st !! archive = Some t →
               (t + default_timeout ≤ clock st)%Z.

(** A file that grows by a byte every millisecond until [until], and an
    event for run42.zip. *)
Definition growing_until (until : Z) : Path → History :=
  fun _ t => Some (Z.min t until).
Definition ever_growing : Path → History := fun _ t => Some t.
Definition run42_created : FileSystemEvent :=
  mkEvent Created false "/tmp/dir1/run42.zip" EmptyString.

(** *** Concrete archives and paths used in examples *)

Definition run42 : Path := Path_of "/tmp/dir1/run42.zip".
Definition out_root : Path := Path_of "/var/log".
Definition fail_dir : Path := out_root // "fail".

Definition boot_log : ZipInfo :=
  mkZipInfo "boot.log" false (Ok (b "...FAIL: timeout...")).
Definition env_log : ZipInfo :=
  mkZipInfo "env.log" false (Ok (b "...OK...")).
Definition evil_log : ZipInfo :=
  mkZipInfo "../../etc/cron.d/evil.LOG" false (Ok (b "Failure")).
Definition first_boot_log : ZipInfo :=
  mkZipInfo "unit1/boot.log" false (Ok (b "fail 1")).
Definition second_boot_log : ZipInfo :=
  mkZipInfo "unit2/boot.log" false (Ok (b "fail 2")).

Definition disk_of (members : list ZipInfo) : gmap Path ArchiveFile :=
  {[ run42 := Zip members ]}.

(* ===================================================================== *)
(** ** Further statement-side definitions *)
(* ===================================================================== *)

(** Two entry tables that differ only in what reading an entry outside the
    filter would give. *)
Definition same_filtered_reads (ms ms' : list ZipInfo) : Prop :=
  Forall2 (fun m m' => filename m = filename m' ∧ is_dir m = is_dir m' ∧
                       (scanned m = true → read m = read m')) ms ms'.

(** The path an event is judged by: the destination of a move, the source
    of a creation or modification. *)
Definition event_path (event : FileSystemEvent) : string :=
  match kind event with
  | Moved => dest_path event
  | Created | Modified => src_path event
  end.

(** The final component is a non-empty stem followed by [.zip] in any
    case. *)
Definition zip_name (nm : string) : Prop :=
  ∃ stem ext, nm = stem +:+ ext ∧ stem ≠ EmptyString ∧ lower ext = ".zip".

(** The handler's books agree: a path has a recorded time exactly when a
    task was submitted for it, no recorded time is ahead of the clock, and
    every task in flight was submitted. *)
Definition books_agree (st : State) : Prop :=
  (∀ archive, archive ∈ submitted st ↔
              is_Some (_last_processed st !! archive)) ∧
  (∀ archive t, _last_processed st !! archive = Some t → (t ≤ clock st)%Z) ∧
  (∀ archive, archive ∈ in_flight st → archive ∈ submitted st).

(* ===================================================================== *)
(** ** The monitor and the command line of Observer_v3.py *)
(* ===================================================================== *)

Module Monitor.

Inductive Printed :=
| Usage
| Watching (folder : Path)
| ReceivedInterrupt
| AllObserversStopped.

Inductive ObserverState := Running | StopRequested | Joined.

(** A watchdog observer with the one watch scheduled on it. *)
Record ObserverT := mkObserver {
  scheduled : Path;
  recursive : bool;
  state : ObserverState
}.

Record ZipMonitor := mkZipMonitor {
  watch_folders : list Path;
  root_out : Path;
  max_workers : nat;
  executor_shut_down : bool;
  observers : list ObserverT;
  stdout : list Printed
}.

(** How a call of [main] or of the signal handler ends: the process exits
    with a status, or [main] has reached its sleep loop with the monitor
    started. *)
Inductive MainOutcome :=
| Exited (status : Z) (printed : list Printed)
| Serving (monitor : ZipMonitor).

Section Environment.
(** [p.expanduser().resolve()] and [os.cpu_count()], as the platform gives
    them. *)
Variable resolve : Path → Path.
Variable cpu_count : option nat.

(** [ZipMonitor.__init__]; [os.cpu_count() or 1] is 1 for [None] and 0. *)
Definition ZipMonitor_init (watch_folders : list Path) (root_out : string)
  : ZipMonitor :=
  let cpus := match cpu_count with
              | None | Some O => 1%nat
              | Some n => n
              end in
  let workers := (Nat.max 1 cpus * 2)%nat in
  mkZipMonitor (map resolve watch_folders) (resolve (Path_of root_out))
    workers false [] [].

(** [ZipMonitor.start]: one observer per folder, scheduled recursively. *)
Definition start (self : ZipMonitor) : ZipMonitor :=
  foldl (fun m folder =>
           mkZipMonitor (watch_folders m) (root_out m) (max_workers m)
             (executor_shut_down m)
             (observers m ++ [mkObserver folder true Running])
             (stdout m ++ [Watching folder]))
        self (watch_folders self).

Definition observer_stop (o : ObserverT) : ObserverT :=
  mkObserver (scheduled o) (recursive o)
    (match state o with Joined => Joined | _ => StopRequested end).

Definition observer_join (o : ObserverT) : ObserverT :=
  mkObserver (scheduled o) (recursive o) Joined.

(** [ZipMonitor.stop]. *)
Definition stop (self : ZipMonitor) : ZipMonitor :=
  let stopped := map observer_stop (observers self) in
  let joined := map observer_join stopped in
  mkZipMonitor (watch_folders self) (root_out self) (max_workers self)
    true joined (stdout self ++ [AllObserversStopped]).

(** [_signal_handler]: stop the monitor, then [sys.exit(0)]. *)
Definition _signal_handler (monitor : ZipMonitor) : MainOutcome * ZipMonitor :=
  let m := mkZipMonitor (watch_folders monitor) (root_out monitor)
             (max_workers monitor) (executor_shut_down monitor)
             (observers monitor) (stdout monitor ++ [ReceivedInterrupt]) in
  let m := stop m in
  (Exited 0 (stdout m), m).

(** [main] up to its sleep loop; [sys.argv[1:5]] is [take 4 (drop 1 argv)]. *)
Definition main (argv : list string) : MainOutcome :=
  if (length argv <? 6)%nat then Exited 1 [Usage]
  else
    let watch_dirs := map Path_of (take 4 (drop 1 argv)) in
    let output_root := nth 5 argv EmptyString in
    Serving (start (ZipMonitor_init watch_dirs output_root)).

End Environment.
End Monitor.

(* ===================================================================== *)
(** ** The handlers of Observer_v2.py and Observer.py *)
(* ===================================================================== *)

Module V2Handler.

(** [ZipEventHandler.on_created] of Observer_v2: the task is submitted at
    once.  The state is the list of submitted archives. *)
Definition on_created (event : FileSystemEvent) (submitted : list Path)
  : list Path :=
  if is_directory event then submitted
  else
    let path := Path_of (src_path event) in
    if negb (String.eqb (lower (suffix path)) ".zip") then submitted
    else submitted ++ [path].

(** [FileSystemEventHandler.dispatch]: the class overrides [on_created]
    only; the inherited [on_modified] and [on_moved] do nothing. *)
Definition dispatch (event : FileSystemEvent) (submitted : list Path)
  : list Path :=
  match kind event with
  | Created => on_created event submitted
  | Modified | Moved => submitted
  end.

End V2Handler.

Module V1Handler.

Inductive Printed :=
| NewFolderCreated (src : string)
| ExistingFile (path : string)
| NewFileCreated (src : string)
| Extracted (count : nat) (fail_dir : string).

Definition fail_dir_path : string := "./Fail Logs".

Section Environment.
(** [Path(x).expanduser().resolve()] and the files [os.walk] finds below a
    directory, as the platform gives them. *)
Variable resolve : Path → Path.
Variable walk_files : string → list string.

(** [extract_failed_logs] of Observer.py, with its two [resolve] calls. *)
Definition extract_failed_logs (disk : gmap Path ArchiveFile)
    (archive_path out_dir : string) (fs : FS) : Outcome :=
  Observer.extract_failed_logs disk (resolve (Path_of archive_path))
    (resolve (Path_of out_dir)) fs.

(** [NewFolderAndFileHandler.on_created]: what is printed, the tree, and the
    exception that escapes the callback. *)
Definition on_created (disk : gmap Path ArchiveFile)
    (event : FileSystemEvent) (fs : FS)
  : list Printed * FS * option exn :=
  if is_directory event then
    (NewFolderCreated (src_path event)
       :: map ExistingFile (walk_files (src_path event)), fs, None)
  else
    let o := extract_failed_logs disk (src_path event) fail_dir_path fs in
    match raised o with
    | Some e => ([NewFileCreated (src_path event)], fs_after o, Some e)
    | None =>
        ([NewFileCreated (src_path event);
          Extracted (length (yielded o)) fail_dir_path], fs_after o, None)
    end.

End Environment.
End V1Handler.

(* ===================================================================== *)
(** ** The log sender (the second program in Observer_v3.py) *)
(* ===================================================================== *)

(** [s.split(sep)] for a one-character separator. *)
Fixpoint split_on (sep : ascii) (s : string) : list string :=
  match s with
  | EmptyString => [EmptyString]
  | String c s' =>
      if Ascii.eqb c sep then EmptyString :: split_on sep s'
      else match split_on sep s' with
           | [] => [String c EmptyString]
           | hd :: tl => String c hd :: tl
           end
  end.

(** [needle in hay] for strings. *)
Fixpoint str_in (needle hay : string) : bool :=
  String.prefix needle hay ||
  match hay with
  | EmptyString => false
  | String _ hay' => str_in needle hay'
  end.

Module faillog.

Inductive read_failure := OSError | UnicodeDecodeError.

(** What iterating over a file opened as UTF-8 text gives: the lines that
    could be decoded, then the exception that ended the reading, if any.  A
    file that cannot be opened gives no line and [OSError]. *)
Record TextRead := mkTextRead {
  lines : list string;
  failure : option read_failure
}.

(** One entry of [res_dir_path.iterdir()], with what reading that file
    gives, as text and as bytes. *)
Record DirEntry := mkDirEntry {
  entry_name : string;
  is_file : bool;
  text : TextRead;
  raw : bytes
}.

Inductive LogRecord :=
| Warning_could_not_read (name : string) (why : read_failure)
| Error_directory_does_not_exist
| Info_no_matching_file
| Info_not_a_failure_log (name : string)
| Error_failed_to_copy (name : string) (dest_file : Path)
| Info_copied (name : string) (dest_path : Path).

Section Text.
(** [str.upper()], as the Unicode tables of the interpreter give it. *)
Variable upper : string → string.

Definition line_fails (line : string) : bool :=
  str_in "FAIL" (upper line) || str_in "ERROR" (upper line).

(** [is_failed_log]: the answer and what is logged.  The lines are read one
    by one, so a line that matches answers before a later failure of the
    reading is met. *)
Definition is_failed_log (file_path : DirEntry) : bool * list LogRecord :=
  if existsb line_fails (lines (text file_path)) then (true, [])
  else
    match failure (text file_path) with
    | Some exc => (false, [Warning_could_not_read (entry_name file_path) exc])
    | None => (false, [])
    end.

Definition expected_serial (serial_num : string) (is_cft : bool) : string :=
  if is_cft then serial_num +:+ "-A" else serial_num.

(** The body of the loop of [get_latest_file], on the pair
    [(latest_file, latest_ts)]. *)
Definition latest_step (serial_num file_type : string) (is_cft : bool)
    (acc : option DirEntry * string) (path : DirEntry)
  : option DirEntry * string :=
  if negb (is_file path) || negb (endswith (entry_name path) file_type)
  then acc
  else
    let parts := split_on "_" (entry_name path) in
    if (length parts <? 5)%nat then acc
    else
      let file_serial := nth 2 parts EmptyString in
      if negb (String.eqb file_serial (expected_serial serial_num is_cft))
      then acc
      else
        let file_ts := nth 3 parts EmptyString +:+ nth 4 parts EmptyString in
        if String.ltb (snd acc) file_ts then (Some path, file_ts) else acc.

(** [get_latest_file]; [None] for the directory when [res_dir_path] is not
    one. *)
Definition get_latest_file (res_dir : option (list DirEntry))
    (serial_num file_type : string) (is_cft : bool)
  : option DirEntry * list LogRecord :=
  match res_dir with
  | None => (None, [Error_directory_does_not_exist])
  | Some entries =>
      (fst (foldl (latest_step serial_num file_type is_cft)
              (None, EmptyString) entries), [])
  end.

(** [send_fail_log].  [copy_fails] tells for which destinations
    [shutil.copy2] raises [OSError]. *)
Definition send_fail_log (log_dir : option (list DirEntry))
    (serial_num file_type : string) (dest_path : Path) (is_cft : bool)
    (copy_fails : Path → bool) (fs : FS)
  : bool * FS * list LogRecord :=
  match get_latest_file log_dir serial_num file_type is_cft with
  | (None, log) => (false, fs, log ++ [Info_no_matching_file])
  | (Some src_file, log) =>
      let '(failed, log') := is_failed_log src_file in
      if negb failed then
        (false, fs,
         log ++ log' ++ [Info_not_a_failure_log (entry_name src_file)])
      else
        let fs := mkdir_parents dest_path fs in
        let dest_file := dest_path // entry_name src_file in
        if copy_fails dest_file then
          (false, fs,
           log ++ log' ++ [Error_failed_to_copy (entry_name src_file) dest_file])
        else
          (true, write_bytes dest_file (raw src_file) fs,
           log ++ log' ++ [Info_copied (entry_name src_file) dest_path])
  end.

End Text.

(** *** Statement side *)

(** The time stamp a file name carries: its fourth and fifth fields. *)
Definition file_ts (nm : string) : string :=
  nth 3 (split_on "_" nm) EmptyString +:+ nth 4 (split_on "_" nm) EmptyString.

(** The entry is a file, has the suffix, at least five fields, and the
    expected serial number as its third field. *)
Definition qualifies (serial_num file_type : string) (is_cft : bool)
    (e : DirEntry) : bool :=
  is_file e && endswith (entry_name e) file_type &&
  (5 <=? length (split_on "_" (entry_name e)))%nat &&
  String.eqb (nth 2 (split_on "_" (entry_name e)) EmptyString)
    (expected_serial serial_num is_cft).

(** What the loop knows after the entries [seen]: nothing chosen, and every
    qualifying entry so far carries an empty time stamp; or an entry chosen
    that beats every qualifying entry before it and is not beaten by any
    after it. *)
Definition latest_inv (serial_num file_type : string) (is_cft : bool)
    (seen : list DirEntry) (acc : option DirEntry * string) : Prop :=
  match acc.1 with
  | None =>
      acc.2 = EmptyString ∧
      ∀ e, e ∈ seen → qualifies serial_num file_type is_cft e = true →
           file_ts (entry_name e) = EmptyString
  | Some best =>
      acc.2 = file_ts (entry_name best) ∧
      qualifies serial_num file_type is_cft best = true ∧
      acc.2 ≠ EmptyString ∧
      ∃ before after,
        seen = before ++ best :: after ∧
        (∀ e, e ∈ before →
              qualifies serial_num file_type is_cft e = true →
              String.ltb (file_ts (entry_name e)) acc.2
              = true) ∧
        (∀ e, e ∈ after →
              qualifies serial_num file_type is_cft e = true →
              String.ltb acc.2 (file_ts (entry_name e))
              = false)
  end.

End faillog.

(** *** Concrete directory entries used in examples *)

Definition log_of_jan_1 : faillog.DirEntry :=
  faillog.mkDirEntry "st1_run_SN1234_20250101_101500_a.log" true
    (faillog.mkTextRead ["step 3: Test FAILED"] None) (b "step 3: Test FAILED").
Definition log_of_jan_2 : faillog.DirEntry :=
  faillog.mkDirEntry "st1_run_SN1234_20250102_090000_b.log" true
    (faillog.mkTextRead ["all steps passed"] None) (b "all steps passed").
Definition log_of_other_unit : faillog.DirEntry :=
  faillog.mkDirEntry "st1_run_SN9999_20250103_090000_c.log" true
    (faillog.mkTextRead ["error: no power"] None) (b "error: no power").
Definition log_with_empty_stamp : faillog.DirEntry :=
  faillog.mkDirEntry "st1_run_SN1234___.log" true
    (faillog.mkTextRead ["FAIL"] None) (b "FAIL").

(** [str.upper()] on A-Z and a-z only, for the examples. *)
Definition upper_ascii (c : ascii) : ascii :=
  let n := N_of_ascii c in
  if ((97 <=? n) && (n <=? 122))%N then ascii_of_N (n - 32) else c.
Fixpoint ascii_upper (s : string) : string :=
  match s with
  | EmptyString => EmptyString
  | String c s' => String (upper_ascii c) (ascii_upper s')
  end.

(** The created events for zip names, which are the ones Observer_v2
    submits. *)
Definition v2_takes (event : FileSystemEvent) : bool :=
  match kind event with
  | Created =>
      negb (is_directory event) &&
      String.eqb (lower (suffix (Path_of (src_path event)))) ".zip"
  | Modified | Moved => false
  end.

(* ===================================================================== *)
(** * Properties *)
(* ===================================================================== *)

(** ** Bytes *)

Lemma bytes_startswith_spec needle hay :
  bytes_startswith needle hay = true ↔ ∃ post, hay = needle ++ post.
Proof.
  revert hay. induction needle as [|n ns IH]; intros hay; simpl.
  - split; [by exists hay | done].
  - destruct hay as [|h hs].
    + split; [done | by intros [post [=]]].
    + rewrite andb_true_iff, IH. split.
      * intros [Hb [post ->]]. apply byte_dec_bl in Hb as ->. by exists post.
      * intros [post [= -> ->]]. split; [by apply byte_dec_lb | by exists post].
Qed.

Lemma bytes_in_spec needle hay :
  bytes_in needle hay = true ↔ ∃ pre post, hay = pre ++ needle ++ post.
Proof.
  induction hay as [|h hs IH]; simpl.
  - rewrite orb_false_r, bytes_startswith_spec. split.
    + intros [post ->]. by exists [], post.
    + intros (pre & post & H). symmetry in H.
      apply app_eq_nil in H as [-> H]. by exists post.
  - rewrite orb_true_iff, bytes_startswith_spec, IH. split.
    + intros [[post ->] | (pre & post & ->)].
      * by exists [], post.
      * by exists (h :: pre), post.
    + intros (pre & post & H). destruct pre as [|x pre]; simpl in H.
      * left. by exists post.
      * right. injection H as -> ->. by exists pre, post.
Qed.

Lemma bytes_in_lower_spec keyword buf :
  bytes_in keyword (bytes_lower buf) = true ↔ ci_contains keyword buf.
Proof.
  rewrite bytes_in_spec. unfold ci_contains, bytes_lower. split.
  - intros (pre & post & H).
    apply map_eq_app in H as (pre' & rest & -> & <- & H).
    apply map_eq_app in H as (w & post' & -> & <- & <-).
    by exists pre', w, post'.
  - intros (pre & w & post & -> & <-).
    exists (map lower_byte pre), (map lower_byte post).
    by rewrite !map_app.
Qed.

Lemma contains_fail_v3_spec buf :
  Observer_v3._contains_fail buf = true ↔ ci_contains (b "fail") buf.
Proof. apply bytes_in_lower_spec. Qed.

Lemma contains_fail_v2_spec buf :
  Observer_v2._contains_fail buf = true ↔ ci_contains (b "fail") buf.
Proof. apply bytes_in_lower_spec. Qed.

Lemma contains_fail_v1_spec buf :
  Observer._contains_fail buf = true ↔ ci_contains (b "test failed") buf.
Proof. apply bytes_in_lower_spec. Qed.

(** ** Strings and paths *)

Lemma endswith_cons c s suf :
  endswith s suf = true → endswith (String c s) suf = true.
Proof. intros H. simpl. rewrite H. apply orb_true_r. Qed.

Lemma lower_ascii_slash c :
  Ascii.eqb (lower_ascii c) slash = Ascii.eqb c slash.
Proof. by destruct c as [[] [] [] [] [] [] [] []]. Qed.

Lemma has_slash_lower s : has_slash (lower s) = has_slash s.
Proof.
  induction s as [|c s IH]; simpl; [done|].
  by rewrite lower_ascii_slash, IH.
Qed.

Lemma split_slash_no_slash s : has_slash s = false → split_slash s = [s].
Proof.
  induction s as [|c s IH]; simpl; [done|].
  intros [Hc Hs]%orb_false_iff. by rewrite Hc, (IH Hs).
Qed.

Lemma split_slash_components s :
  Forall (fun c => has_slash c = false) (split_slash s).
Proof.
  induction s as [|c s IH]; simpl.
  - by constructor.
  - destruct (Ascii.eqb c slash) eqn:Hc.
    + by constructor.
    + destruct (split_slash s) as [|hd tl].
      * constructor; [|done]. simpl. by rewrite Hc.
      * inversion_clear IH as [|? ? Hhd Htl].
        constructor; [|done]. simpl. by rewrite Hc.
Qed.

Lemma split_slash_last_log s :
  endswith (lower s) ".log" = true →
  endswith (lower (List.last (split_slash s) EmptyString)) ".log" = true.
Proof.
  induction s as [|c s IH]; [done|].
  intros H. cbn [split_slash].
  destruct (Ascii.eqb c slash) eqn:Hc.
  - apply Ascii.eqb_eq in Hc as ->.
    change (endswith (lower s) ".log" = true) in H.
    specialize (IH H).
    destruct (split_slash s) as [|hd tl]; [done|]. exact IH.
  - cbn [lower endswith] in H. apply orb_true_iff in H as [Hex | Htl].
    + assert (has_slash s = false) as Hns.
      { apply String.eqb_eq in Hex. injection Hex as _ Hex.
        by rewrite <- has_slash_lower, Hex. }
      rewrite (split_slash_no_slash _ Hns). cbn [List.last lower endswith].
      by rewrite Hex.
    + specialize (IH Htl).
      destruct (split_slash s) as [|hd [|t tl]]; [done| |exact IH].
      by apply endswith_cons.
Qed.

Lemma last_filter_keep {A} (P : A → bool) (l : list A) (d : A) :
  l ≠ [] → P (List.last l d) = true →
  List.last (filter (fun x => Is_true (P x)) l) d = List.last l d.
Proof.
  induction l as [|x l IH]; [done|]. intros _ HP.
  destruct l as [|y l].
  - simpl in HP. rewrite filter_cons. rewrite decide_True; [done|].
    by rewrite HP.
  - change (List.last (x :: y :: l) d) with (List.last (y :: l) d) in *.
    rewrite filter_cons.
    assert (filter (fun x => Is_true (P x)) (y :: l) ≠ []) as Hne.
    { intros Hnil. specialize (IH ltac:(done) HP). rewrite Hnil in IH.
      simpl in IH.
      assert (List.last (y :: l) d ∈ filter (fun x => Is_true (P x)) (y :: l))
        as Hin.
      { apply list_elem_of_filter. split; [by rewrite HP|].
        apply list_elem_of_In.
        destruct (exists_last (l:=y :: l) ltac:(done)) as (l' & a & ->).
        rewrite last_last. apply in_or_app. right. by left. }
      rewrite Hnil in Hin. by apply not_elem_of_nil in Hin. }
    destruct (decide (Is_true (P x))).
    + destruct (filter (fun x => Is_true (P x)) (y :: l)) eqn:Hf; [done|].
      rewrite <- (IH ltac:(done) HP). done.
    + by apply IH.
Qed.

Lemma endswith_log_plain c :
  has_slash c = false → endswith (lower c) ".log" = true →
  plain_component c = true.
Proof.
  intros Hns Hlog. unfold plain_component. rewrite Hns.
  destruct (String.eqb_spec c EmptyString) as [->|_]; [done|].
  destruct (String.eqb_spec c ".") as [->|_]; [done|].
  by destruct (String.eqb_spec c "..") as [->|_].
Qed.

Lemma plain_component_keep c : plain_component c = true → keep_part c = true.
Proof.
  unfold plain_component, keep_part.
  by destruct (String.eqb c EmptyString), (String.eqb c ".").
Qed.

(** The name of a path whose text ends in [.log] (in any case) is one plain
    component, itself ending in [.log]. *)
Lemma name_of_log_filename s :
  endswith (lower s) ".log" = true →
  plain_component (name (Path_of s)) = true ∧
  endswith (lower (name (Path_of s))) ".log" = true.
Proof.
  intros H. pose proof (split_slash_last_log s H) as Hlast.
  assert (split_slash s ≠ []) as Hne by (by destruct s as [|c s]; simpl;
    [|destruct (Ascii.eqb c slash), (split_slash s)]).
  assert (has_slash (List.last (split_slash s) EmptyString) = false) as Hns.
  { pose proof (split_slash_components s) as Hall.
    rewrite Forall_forall in Hall. apply Hall.
    destruct (exists_last Hne) as (l' & a & ->).
    rewrite last_last. apply list_elem_of_In, in_or_app. right. by left. }
  pose proof (endswith_log_plain _ Hns Hlast) as Hplain.
  unfold name, Path_of, parse_parts. cbn [parts].
  rewrite (last_filter_keep keep_part);
    [done | done | by apply plain_component_keep].
Qed.

Lemma parse_parts_plain c : plain_component c = true → parse_parts c = [c].
Proof.
  intros H. unfold parse_parts.
  assert (has_slash c = false) as Hns.
  { unfold plain_component in H. by destruct (has_slash c);
      [rewrite andb_false_r in H|]. }
  rewrite (split_slash_no_slash _ Hns), filter_cons, decide_True; [done|].
  by rewrite (plain_component_keep _ H).
Qed.

Lemma truediv_plain p c :
  plain_component c = true → p // c = mkPath (anchor p) (parts p ++ [c]).
Proof.
  intros H. unfold truediv. rewrite (parse_parts_plain _ H).
  assert (is_absolute_str c = false) as ->; [|done].
  unfold plain_component in H. destruct c as [|a c]; [done|]. simpl in *.
  destruct (Ascii.eqb a slash); [|done]. by rewrite andb_false_r in H.
Qed.

Lemma truediv_plain_parent p c : plain_component c = true → parent (p // c) = p.
Proof.
  intros H. rewrite (truediv_plain _ _ H). unfold parent. cbn [anchor parts].
  rewrite removelast_last. by destruct p.
Qed.

Lemma truediv_plain_inside p c :
  plain_component c = true → strictly_inside p (p // c).
Proof.
  intros H. rewrite (truediv_plain _ _ H). split; [done|].
  exists [c]. repeat split; [done|]. by constructor.
Qed.


Lemma strictly_inside_trans a b c :
  strictly_inside a b → strictly_inside b c → strictly_inside a c.
Proof.
  intros [Hab (r1 & Hp1 & Hn1 & Hf1)] [Hbc (r2 & Hp2 & Hn2 & Hf2)].
  split; [congruence|]. exists (r1 ++ r2). repeat split.
  - by rewrite Hp2, Hp1, app_assoc.
  - by destruct r1.
  - by apply Forall_app.
Qed.

(** ** The extraction loop *)

Section ExtractionFacts.
Variable contains_fail : bytes → bool.

Lemma scan_members_cons m rest out_dir fs :
  scan_members contains_fail (m :: rest) out_dir fs =
  if scanned m then
    match read m with
    | Raise e => mkOutcome fs [] (Some e)
    | Ok buf =>
        if contains_fail buf then
          let out_path := out_dir // name (Path_of (filename m)) in
          yield out_path
            (scan_members contains_fail rest out_dir
               (write_bytes out_path buf
                  (mkdir_parents (parent out_path) fs)))
        else scan_members contains_fail rest out_dir fs
    end
  else scan_members contains_fail rest out_dir fs.
Proof.
  unfold scanned. simpl.
  by destruct (endswith (lower (filename m)) ".log"), (is_dir m).
Qed.


Lemma artifact_of_Some out_dir m p buf :
  artifact_of contains_fail out_dir m = Some (p, buf) ↔
  endswith (lower (filename m)) ".log" = true ∧ is_dir m = false ∧
  read m = Ok buf ∧ contains_fail buf = true ∧
  p = out_dir // name (Path_of (filename m)).
Proof.
  unfold artifact_of, scanned.
  destruct (endswith (lower (filename m)) ".log"), (is_dir m); simpl;
    try (split; [done | by intros (? & ? & _)]).
  destruct (read m) as [buf'|e]; [|split; [done | by intros (_ & _ & ? & _)]].
  destruct (contains_fail buf') eqn:Hc.
  - split; [by intros [= <- <-] | by intros (_ & _ & [= ->] & _ & ->)].
  - split; [done | intros (_ & _ & [= ->] & ? & _); congruence].
Qed.

Lemma omap_artifact_cons out_dir m l :
  omap (artifact_of contains_fail out_dir) (m :: l) =
  match artifact_of contains_fail out_dir m with
  | Some a => a :: omap (artifact_of contains_fail out_dir) l
  | None => omap (artifact_of contains_fail out_dir) l
  end.
Proof. reflexivity. Qed.

Lemma scan_members_trace members : ∀ out_dir fs,
  let arts := omap (artifact_of contains_fail out_dir) (reached members) in
  let o := scan_members contains_fail members out_dir fs in
  written (fs_after o) = written fs ++ arts ∧
  files (fs_after o) = apply_writes arts (files fs) ∧
  yielded o = arts.*1.
Proof.
  induction members as [|m rest IH]; intros out_dir fs.
  - simpl. by rewrite app_nil_r.
  - cbv zeta. rewrite scan_members_cons. cbn [reached].
    destruct (scanned m) eqn:Hs.
    + destruct (read m) as [buf|e] eqn:Hr.
      * rewrite omap_artifact_cons.
        assert (artifact_of contains_fail out_dir m =
                if contains_fail buf
                then Some (out_dir // name (Path_of (filename m)), buf)
                else None) as -> by (unfold artifact_of; by rewrite Hs, Hr).
        destruct (contains_fail buf); [|apply IH].
        cbv zeta.
        destruct (IH out_dir
                    (write_bytes (out_dir // name (Path_of (filename m)))
                       buf
                       (mkdir_parents
                          (parent (out_dir // name (Path_of (filename m))))
                          fs))) as (Hw & Hf & Hy).
        simpl. rewrite Hw, Hf, Hy. simpl. by rewrite <- app_assoc.
      * simpl. by rewrite app_nil_r.
    + rewrite omap_artifact_cons.
      assert (artifact_of contains_fail out_dir m = None) as ->
        by (unfold artifact_of; by rewrite Hs).
      apply IH.
Qed.





Lemma reached_subseteq members : reached members ⊆ members.
Proof.
  induction members as [|m rest IH]; simpl; [done|].
  destruct (scanned m); [destruct (read m)|];
    try (by apply list_subseteq_skip); apply list_subseteq_nil.
Qed.

(** Every write of a run goes to [out_dir / basename], a direct child of
    [out_dir], whatever the member's name holds and however the run ends. *)
Lemma artifacts_confined out_dir members :
  Forall (fun w => ∃ m, m ∈ members ∧ read m = Ok w.2 ∧
            w.1 = out_dir // name (Path_of (filename m)) ∧
            plain_component (name (Path_of (filename m))) = true ∧
            parent w.1 = out_dir ∧ strictly_inside out_dir w.1)
         (omap (artifact_of contains_fail out_dir) (reached members)).
Proof.
  apply Forall_forall. intros [p buf] Hin.
  apply list_elem_of_omap in Hin as (m & Hm & Ha).
  apply artifact_of_Some in Ha as (Hlog & _ & Hr & _ & ->).
  destruct (name_of_log_filename _ Hlog) as [Hplain _].
  exists m. cbn [fst snd]. repeat split; try done.
  - by apply reached_subseteq.
  - by apply truediv_plain_parent.
  - by apply truediv_plain_inside.
  - by apply truediv_plain_inside.
Qed.

Lemma extract_trace disk archive_path out_dir fs members :
  disk !! archive_path = Some (Zip members) →
  let arts := omap (artifact_of contains_fail out_dir) (reached members) in
  let o := extract_failed_logs_with contains_fail disk archive_path out_dir fs in
  written (fs_after o) = written fs ++ arts ∧
  files (fs_after o) = apply_writes arts (files fs) ∧
  yielded o = arts.*1.
Proof.
  intros Hd. unfold extract_failed_logs_with, ZipFile. rewrite Hd.
  apply (scan_members_trace members out_dir (mkdir_parents out_dir fs)).
Qed.

Lemma extract_not_opened disk archive_path out_dir fs :
  (∀ members, disk !! archive_path ≠ Some (Zip members)) →
  let o := extract_failed_logs_with contains_fail disk archive_path out_dir fs in
  written (fs_after o) = written fs ∧ files (fs_after o) = files fs ∧
  yielded o = [] ∧
  raised o = Some (match disk !! archive_path with
                   | None => FileNotFoundError
                   | Some _ => BadZipFile
                   end).
Proof.
  intros Hd. unfold extract_failed_logs_with, ZipFile.
  destruct (disk !! archive_path) as [[|members]|]; [done| |done].
  by destruct (Hd members).
Qed.

End ExtractionFacts.

(** ** Destination contents *)

Lemma apply_writes_snoc ws w fm :
  apply_writes (ws ++ [w]) fm = <[w.1 := w.2]> (apply_writes ws fm).
Proof. unfold apply_writes. by rewrite foldl_app. Qed.

(** After a sequence of writes a path holds what was written to it last. *)
Lemma apply_writes_lookup ws fm p :
  apply_writes ws fm !! p =
  match last (filter (fun w => w.1 = p) ws) with
  | Some w => Some w.2
  | None => fm !! p
  end.
Proof.
  induction ws as [|w ws IH] using rev_ind; [done|].
  rewrite apply_writes_snoc, filter_app, filter_cons, filter_nil.
  destruct (decide (w.1 = p)) as [Heq|Hne].
  - rewrite last_snoc. subst p. apply lookup_insert_eq.
  - rewrite app_nil_r, lookup_insert_ne by done. apply IH.
Qed.

Section SameName.
Variable contains_fail : bytes → bool.
Variable out_dir : Path.
Variable nm : string.
Hypothesis nm_plain : plain_component nm = true.





End SameName.

(** ** Claims about the extraction engine *)




(** C2.  Whatever the archive holds and however the run ends, every file
    [extract_failed_logs] writes is at [out_dir] joined with the base name
    of a member: one plain component (no separator, not [".."]), so the
    written path is a direct child of [out_dir]. *)
Theorem C2_destination_is_basename_under_out_dir disk archive out_dir fs :
  let o := Observer_v3.extract_failed_logs disk archive out_dir fs in
  ∃ new,
    written (fs_after o) = written fs ++ new ∧
    files (fs_after o) = apply_writes new (files fs) ∧
    yielded o = new.*1 ∧
    Forall (fun w =>
              ∃ members m,
                disk !! archive = Some (Zip members) ∧ m ∈ members ∧
                read m = Ok w.2 ∧
                w.1 = out_dir // name (Path_of (filename m)) ∧
                plain_component (name (Path_of (filename m))) = true ∧
                parent w.1 = out_dir ∧ strictly_inside out_dir w.1) new.
Proof.
  intros o. destruct (disk !! archive) as [[|members]|] eqn:Hd.
  - destruct (extract_not_opened Observer_v3._contains_fail disk archive
                out_dir fs) as (Hw & Hf & Hy & _); [by rewrite Hd|].
    exists []. by rewrite app_nil_r.
  - destruct (extract_trace Observer_v3._contains_fail disk archive out_dir fs
                members Hd) as (Hw & Hf & Hy).
    eexists. repeat split; try done.
    eapply Forall_impl; [apply artifacts_confined|].
    intros w (m & ? & ? & ? & ? & ? & ?). by exists members, m.
  - destruct (extract_not_opened Observer_v3._contains_fail disk archive
                out_dir fs) as (Hw & Hf & Hy & _); [by rewrite Hd|].
    exists []. by rewrite app_nil_r.
Qed.

Example traversal_name_stays_inside :
  written (fs_after (Observer_v3.extract_failed_logs
                       (disk_of [evil_log]) run42 fail_dir empty_fs))
  = [(Path_of "/var/log/fail/evil.LOG", b "Failure")].
Proof. reflexivity. Qed.







(** ** The task boundary *)






(** C9.  The predicate of Observer_v3.py and Observer_v2.py is containment
    of [fail] in any case, and run42.zip gives the one artifact
    [fail/boot.log] with its exact bytes.  The predicate of Observer.py
    looks for [test failed] instead, against its own docstring: it rejects
    the bytes of [boot.log], and the same archive gives no artifact. *)
Theorem C9_predicate_per_version :
  Observer_v3._contains_fail (b "...FAIL: timeout...") = true ∧
  Observer_v3._contains_fail (b "...OK...") = false ∧
  Observer_v2._contains_fail (b "...FAIL: timeout...") = true ∧
  Observer_v2._contains_fail (b "...OK...") = false ∧
  written (tree (Observer_v3._process_zip (disk_of [boot_log; env_log])
                   out_root run42 fresh_daemon).1)
  = [(out_root // "fail" // "boot.log", b "...FAIL: timeout...")] ∧
  Observer._contains_fail (b "...FAIL: timeout...") = false ∧
  written (fs_after (Observer.extract_failed_logs (disk_of [boot_log; env_log])
                       run42 fail_dir empty_fs)) = [].
Proof. vm_compute. by repeat split. Qed.

(** ** The stability probe *)

Section Probe.
Variable p : History.
Variables timeout poll_interval t0 : Z.
Hypothesis poll_pos : (0 < poll_interval)%Z.

Lemma wait_loop_sound fuel : ∀ size start now ok T,
  loop_inv p poll_interval t0 size start now →
  wait_loop fuel p timeout poll_interval size start now = Some (ok, T) →
  if ok then stable_window p timeout poll_interval t0 T
  else vanished_at p poll_interval t0 T.
Proof.
  induction fuel as [|fuel IH]; intros size start now ok T Hinv; [done|].
  cbn [wait_loop].
  destruct Hinv as (k & n & Hk & Hn & Hstart & Hnow & Hsame & Hreset & Hthere).
  destruct (now - start <? timeout)%Z eqn:Hlt.
  - destruct (p (now + poll_interval)%Z) as [st_size|] eqn:Hp.
    + destruct (st_size =? size)%Z eqn:Heq; cbn [negb].
      * apply Z.eqb_eq in Heq as ->. apply IH.
        exists k, (n + 1)%Z. split_and!; try lia.
        -- intros j Hj. destruct (decide (j = n + 1)%Z) as [->|Hne].
           ++ rewrite <- Hp. f_equal. lia.
           ++ apply Hsame. lia.
        -- done.
        -- intros j Hj. destruct (decide (j = k + (n + 1))%Z) as [->|Hne].
           ++ replace (t0 + (k + (n + 1)) * poll_interval)%Z
                with (now + poll_interval)%Z by lia.
              by rewrite Hp.
           ++ apply Hthere. lia.
      * apply Z.eqb_neq in Heq. apply IH.
        exists (k + n + 1)%Z, 0%Z. split_and!; try lia.
        -- intros j Hj. replace j with 0%Z by lia. rewrite <- Hp. f_equal. lia.
        -- right. replace (now + poll_interval - poll_interval)%Z
             with (start + n * poll_interval)%Z by lia.
           rewrite Hsame by lia. congruence.
        -- intros j Hj. destruct (decide (j = k + n + 1)%Z) as [->|Hne].
           ++ replace (t0 + (k + n + 1) * poll_interval)%Z
                with (now + poll_interval)%Z by lia.
              by rewrite Hp.
           ++ apply Hthere. lia.
    + intros [= <- <-]. exists (k + n + 1)%Z. split_and!; try lia; try done.
      intros j Hj. apply Hthere. lia.
  - intros [= <- <-]. apply Z.ltb_ge in Hlt.
    exists size, k, n. split_and!; try lia; try done.
    + intros j Hj. rewrite <- (Hsame j) by lia. f_equal. lia.
    + destruct Hreset as [->|Hreset]; [by left|right].
      intros Hc. apply Hreset. rewrite <- Hc. f_equal. lia.
Qed.

Lemma wait_until_stable_sound fuel ok T :
  _wait_until_stable fuel p timeout poll_interval t0 = Some (ok, T) →
  if ok then stable_window p timeout poll_interval t0 T
  else vanished_at p poll_interval t0 T.
Proof.
  unfold _wait_until_stable. destruct (p t0) as [size|] eqn:Hp.
  - apply wait_loop_sound. exists 0%Z, 0%Z. split_and!; try lia.
    + intros j Hj. replace j with 0%Z by lia. rewrite <- Hp. f_equal. lia.
    + intros j Hj. replace j with 0%Z by lia.
      replace (t0 + 0 * poll_interval)%Z with t0 by lia. by rewrite Hp.
  - intros [= <- <-]. exists 0%Z. split_and!; try lia; try done.
Qed.

(** A file whose size no longer changes is accepted, given the fuel for
    the polls of one window. *)
Lemma wait_loop_stable fuel : ∀ size start now,
  (start ≤ now)%Z →
  (∀ t, (now < t)%Z → p t = Some size) →
  (Z.to_nat (timeout - (now - start)) < fuel)%nat →
  ∃ T, wait_loop fuel p timeout poll_interval size start now = Some (true, T).
Proof.
  induction fuel as [|fuel IH]; intros size start now Hle Hp Hfuel; [lia|].
  cbn [wait_loop]. destruct (now - start <? timeout)%Z eqn:Hlt.
  - apply Z.ltb_lt in Hlt. rewrite Hp by lia. rewrite Z.eqb_refl. cbn [negb].
    apply IH; [lia | intros t Ht; apply Hp; lia | lia].
  - by exists now.
Qed.

Lemma wait_until_stable_stable size :
  (∀ t, (t0 ≤ t)%Z → p t = Some size) →
  ∃ T, _wait_until_stable (S (Z.to_nat timeout)) p timeout poll_interval t0
       = Some (true, T).
Proof.
  intros Hp. unfold _wait_until_stable. rewrite Hp by lia.
  apply wait_loop_stable; [lia | intros t Ht; apply Hp; lia | lia].
Qed.

(** A file whose size differs from one poll to the next keeps the loop
    going: the timer is reset at every poll and no amount of fuel is
    enough. *)
Lemma wait_loop_changing fuel : ∀ size now,
  (0 < timeout)%Z →
  (∀ t, ∃ s s', p t = Some s ∧ p (t + poll_interval)%Z = Some s' ∧ s ≠ s') →
  p now = Some size →
  wait_loop fuel p timeout poll_interval size now now = None.
Proof.
  induction fuel as [|fuel IH]; intros size now Hto Hp Hnow; [done|].
  cbn [wait_loop]. replace (now - now)%Z with 0%Z by lia.
  destruct (Z.ltb_spec 0 timeout) as [_|?]; [|lia].
  destruct (Hp now) as (s & s' & Hs & Hs' & Hne).
  rewrite Hs'. rewrite Hnow in Hs. injection Hs as <-.
  destruct (Z.eqb_spec s' size) as [->|_]; [done|]. cbn [negb].
  by apply IH.
Qed.

(** A file that is missing at some poll instant ends the probe: with fuel
    for the polls up to that instant the loop returns. *)
Lemma wait_loop_returns fuel : ∀ size start now (d : nat),
  p (now + Z.of_nat d * poll_interval)%Z = None →
  (0 < d ≤ fuel)%nat →
  ∃ r, wait_loop fuel p timeout poll_interval size start now = Some r.
Proof.
  induction fuel as [|fuel IH]; intros size start now d Hp Hd; [lia|].
  cbn [wait_loop]. destruct (now - start <? timeout)%Z; [|by eexists].
  destruct (p (now + poll_interval)%Z) as [st_size|] eqn:Hnext;
    [|by eexists].
  destruct (decide (d = 1%nat)) as [->|Hne].
  { replace (now + Z.of_nat 1 * poll_interval)%Z
      with (now + poll_interval)%Z in Hp by lia. congruence. }
  assert (p (now + poll_interval + Z.of_nat (d - 1) * poll_interval)%Z = None)
    as Hp'.
  { rewrite <- Hp. f_equal. lia. }
  destruct (negb (st_size =? size)%Z); apply (IH _ _ _ (d - 1)%nat); try done;
    lia.
Qed.

Lemma wait_until_stable_returns fuel (n : nat) :
  p (t0 + Z.of_nat n * poll_interval)%Z = None →
  (n ≤ fuel)%nat →
  ∃ r, _wait_until_stable fuel p timeout poll_interval t0 = Some r.
Proof.
  intros Hp Hn. unfold _wait_until_stable.
  destruct (p t0) as [size|] eqn:H0; [|by eexists].
  apply (wait_loop_returns _ _ _ _ n); [done|].
  split; [|done]. destruct n; [|lia].
  replace (t0 + Z.of_nat 0 * poll_interval)%Z with t0 in Hp by lia. congruence.
Qed.

End Probe.

(** ** The handler *)

(** The debounce test of [_enqueue]: a call within the window of the
    recorded time changes nothing. *)
Lemma enqueue_debounced fuel sizes archive st :
  (clock st - default 0%Z (_last_processed st !! archive) < DEBOUNCE_SECONDS)%Z →
  _enqueue fuel sizes archive st = Some st.
Proof.
  intros H. unfold _enqueue. by rewrite (proj2 (Z.ltb_lt _ _) H).
Qed.

Lemma enqueue_cases fuel sizes archive st st' :
  _enqueue fuel sizes archive st = Some st' →
  ((clock st - default 0%Z (_last_processed st !! archive)
    < DEBOUNCE_SECONDS)%Z ∧ st' = st)
  ∨ (∃ T,
       (DEBOUNCE_SECONDS
        ≤ clock st - default 0%Z (_last_processed st !! archive))%Z ∧
       vanished_at (sizes archive) default_poll_interval (clock st) T ∧
       st' = mkState T (_last_processed st) (submitted st) (in_flight st))
  ∨ (∃ T,
       (DEBOUNCE_SECONDS
        ≤ clock st - default 0%Z (_last_processed st !! archive))%Z ∧
       stable_window (sizes archive) default_timeout default_poll_interval
         (clock st) T ∧
       st' = mkState T (<[archive := clock st]> (_last_processed st))
               (submitted st ++ [archive]) (in_flight st ++ [archive])).
Proof.
  unfold _enqueue.
  destruct (Z.ltb_spec (clock st - default 0%Z (_last_processed st !! archive))
              DEBOUNCE_SECONDS) as [Hlt|Hge].
  - intros [= <-]. by left.
  - destruct (_wait_until_stable fuel (sizes archive) default_timeout
                default_poll_interval (clock st)) as [[ok T]|] eqn:Hw; [|done].
    apply wait_until_stable_sound in Hw.
    destruct ok; intros [= <-]; [right; right | right; left]; by exists T.
Qed.

Lemma stable_window_later p timeout poll_interval t0 T :
  (0 < poll_interval)%Z → stable_window p timeout poll_interval t0 T →
  (t0 + timeout ≤ T)%Z.
Proof.
  intros Hp (size & k & n & Hk & Hn & -> & Hto & _).
  assert (0 ≤ k * poll_interval)%Z by (apply Z.mul_nonneg_nonneg; lia). lia.
Qed.

Lemma vanished_at_later p poll_interval t0 T :
  (0 < poll_interval)%Z → vanished_at p poll_interval t0 T → (t0 ≤ T)%Z.
Proof.
  intros Hp (n & Hn & -> & _).
  assert (0 ≤ n * poll_interval)%Z by (apply Z.mul_nonneg_nonneg; lia). lia.
Qed.

(** In a settled state the debounce test never holds. *)
Lemma settled_gate_open st archive :
  settled st →
  (DEBOUNCE_SECONDS
   ≤ clock st - default 0%Z (_last_processed st !! archive))%Z.
Proof.
  intros [Hc Hl]. destruct (_last_processed st !! archive) as [t|] eqn:Ht.
  - specialize (Hl _ _ Ht). simpl.
    unfold DEBOUNCE_SECONDS, default_timeout in *. lia.
  - simpl. lia.
Qed.

Lemma enqueue_settled fuel sizes archive st st' :
  settled st → _enqueue fuel sizes archive st = Some st' → settled st'.
Proof.
  intros [Hc Hl] He.
  apply enqueue_cases in He
    as [[_ ->] | [(T & _ & Hv & ->) | (T & _ & Hs & ->)]]; [done| |].
  - apply vanished_at_later in Hv; [|done].
    split; cbn [clock _last_processed];
      unfold DEBOUNCE_SECONDS, default_timeout in *; [lia|].
    intros a t Ht. specialize (Hl _ _ Ht). lia.
  - apply stable_window_later in Hs; [|done].
    split; cbn [clock _last_processed];
      unfold DEBOUNCE_SECONDS, default_timeout in *; [lia|].
    intros a t Ht. destruct (decide (archive = a)) as [->|Hne].
    + rewrite lookup_insert_eq in Ht. injection Ht as <-. lia.
    + rewrite lookup_insert_ne in Ht by done. specialize (Hl _ _ Ht). lia.
Qed.

Lemma step_settled fuel sizes s st st' :
  settled st → step fuel sizes s st = Some st' → settled st'.
Proof.
  intros Hst. destruct s as [arrival event | archive]; cbn [step].
  - assert (settled (mkState (Z.max (clock st) arrival) (_last_processed st)
                       (submitted st) (in_flight st))) as Hst'.
    { destruct Hst as [Hc Hl].
      split; cbn [clock _last_processed];
        unfold DEBOUNCE_SECONDS, default_timeout in *; [lia|].
      intros a t Ht. specialize (Hl _ _ Ht). lia. }
    unfold dispatch, on_created, on_modified, on_moved, _handle_event.
    destruct (kind event), (is_directory event);
      try (by intros [= <-]);
      match goal with
      | |- context [negb ?c] => destruct c; cbn [negb]
      end;
      try (by intros [= <-]); by apply enqueue_settled.
  - intros [= <-]. done.
Qed.

Lemma run_settled fuel sizes steps : ∀ st st',
  settled st → run fuel sizes steps st = Some st' → settled st'.
Proof.
  induction steps as [|s rest IH]; intros st st' Hst; cbn [run].
  - by intros [= <-].
  - destruct (step fuel sizes s st) as [st1|] eqn:Hs; [|done].
    apply IH. by eapply step_settled.
Qed.

(** Once the handler is settled, and it stays so over every run, a call of
    [_enqueue] is decided by the probe alone: the debounce test is dead. *)
Lemma enqueue_settled_is_probe fuel sizes archive st :
  settled st →
  _enqueue fuel sizes archive st =
  match _wait_until_stable fuel (sizes archive)
          default_timeout default_poll_interval (clock st) with
  | None => None
  | Some (false, t) =>
      Some (mkState t (_last_processed st) (submitted st) (in_flight st))
  | Some (true, t) =>
      Some (mkState t (<[archive := clock st]> (_last_processed st))
              (submitted st ++ [archive]) (in_flight st ++ [archive]))
  end.
Proof.
  intros Hst. unfold _enqueue.
  pose proof (settled_gate_open st archive Hst) as Hge.
  by rewrite (proj2 (Z.ltb_ge _ _) Hge).
Qed.

Lemma init_state_settled t0 : (DEBOUNCE_SECONDS ≤ t0)%Z → settled (init_state t0).
Proof.
  intros H. split; [done|]. intros a t Ht. cbn [init_state _last_processed] in Ht.
  by rewrite lookup_empty in Ht.
Qed.

(** ** Claims about the probe and the handler *)

(** C4.  A call of [_enqueue] that returns has done one of three things:
    dropped the event at the debounce test; abandoned it because a poll, at
    the entry or 100 ms after the previous one, found the file missing
    (nothing recorded, nothing submitted, no retry); or submitted the task
    after polls 100 ms apart, covering at least the 2000 ms timeout since the
    entry or the last change of size, all found the same size.  When the
    file is missing at the entry or at a poll up to the return, nothing is
    submitted; and a file that is missing at some poll instant makes the
    call return, given the fuel for the polls up to that instant. *)
Theorem C4_submit_only_after_stability fuel sizes archive st :
  (∀ st',
     _enqueue fuel sizes archive st = Some st' →
     (st' = st
      ∨ (∃ T,
           vanished_at (sizes archive) default_poll_interval (clock st) T ∧
           st' = mkState T (_last_processed st) (submitted st) (in_flight st))
      ∨ (∃ T,
           stable_window (sizes archive) default_timeout
             default_poll_interval (clock st) T ∧
           st' = mkState T (<[archive := clock st]> (_last_processed st))
                   (submitted st ++ [archive]) (in_flight st ++ [archive])))
     ∧ (∀ j, (0 ≤ j)%Z →
             (clock st + j * default_poll_interval ≤ clock st')%Z →
             sizes archive (clock st + j * default_poll_interval)%Z = None →
             submitted st' = submitted st)) ∧
  (∀ n : nat,
     sizes archive (clock st + Z.of_nat n * default_poll_interval)%Z = None →
     (n ≤ fuel)%nat →
     ∃ st', _enqueue fuel sizes archive st = Some st').
Proof.
  assert (∀ st',
     _enqueue fuel sizes archive st = Some st' →
     (st' = st
      ∨ (∃ T,
           vanished_at (sizes archive) default_poll_interval (clock st) T ∧
           st' = mkState T (_last_processed st) (submitted st) (in_flight st))
      ∨ (∃ T,
           stable_window (sizes archive) default_timeout
             default_poll_interval (clock st) T ∧
           st' = mkState T (<[archive := clock st]> (_last_processed st))
                   (submitted st ++ [archive]) (in_flight st ++ [archive])))
     ∧ (∀ j, (0 ≤ j)%Z →
             (clock st + j * default_poll_interval ≤ clock st')%Z →
             sizes archive (clock st + j * default_poll_interval)%Z = None →
             submitted st' = submitted st)) as Hsound.
  { intros st' He.
    apply enqueue_cases in He
      as [[_ ->] | [(T & _ & Hv & ->) | (T & _ & Hs & ->)]].
    - split; [by left | done].
    - split; [right; left; by exists T | done].
    - split; [right; right; by exists T |].
      intros j Hj Hle Hnone. exfalso.
      destruct Hs as (size & k & n & Hk & Hn & HT & _ & _ & _ & Hthere).
      apply (Hthere j); [|done]. cbn [clock] in Hle.
      unfold default_poll_interval in *. lia. }
  split; [exact Hsound|].
  intros n Hnone Hn. unfold _enqueue.
  destruct (clock st - default 0%Z (_last_processed st !! archive)
            <? DEBOUNCE_SECONDS)%Z; [by eexists|].
  destruct (wait_until_stable_returns (sizes archive) default_timeout
              default_poll_interval (clock st) fuel n Hnone Hn)
    as [[[] T] ->]; by eexists.
Qed.

Lemma C4_witness :
  ∃ st', _enqueue 30 (growing_until 1000500) run42 (init_state 1000000)
         = Some st' ∧
         submitted st' = [run42] ∧
         stable_window (growing_until 1000500 run42) default_timeout
           default_poll_interval 1000000 (clock st').
Proof.
  pose (st' := mkState 1002500 (<[run42 := 1000000%Z]> ∅) [run42] [run42]).
  assert (_enqueue 30 (growing_until 1000500) run42 (init_state 1000000)
          = Some st') as He by (vm_compute; reflexivity).
  exists st'. split; [exact He|]. split; [reflexivity|].
  destruct (proj1 (C4_submit_only_after_stability 30
                     (growing_until 1000500) run42 (init_state 1000000))
              st' He)
    as [[Hsame | [(T & _ & Hst) | (T & Hs & Hst)]] _].
  - apply (f_equal submitted) in Hsame. discriminate Hsame.
  - apply (f_equal submitted) in Hst. discriminate Hst.
  - apply (f_equal clock) in Hst. cbn [clock st'] in Hst. subst T. exact Hs.
Defined.

(** C5.  For a file whose size keeps changing the probe does not give up:
    the timer is reset at every poll, so [_wait_until_stable] has not
    returned after any number of iterations, and neither has the call of
    [_enqueue] that runs it. *)
Theorem C5_probe_never_returns_on_growing_file :
  ∀ fuel,
    _wait_until_stable fuel (ever_growing run42) default_timeout
      default_poll_interval 1000000 = None ∧
    _enqueue fuel ever_growing run42 (init_state 1000000) = None.
Proof.
  intros fuel.
  assert (_wait_until_stable fuel (ever_growing run42) default_timeout
            default_poll_interval 1000000 = None) as Hw.
  { unfold _wait_until_stable, ever_growing.
    apply wait_loop_changing; [done | | done].
    intros t. exists t, (t + default_poll_interval)%Z.
    unfold default_poll_interval. repeat split. lia. }
  split; [exact Hw|]. unfold _enqueue. cbn [clock init_state _last_processed].
  rewrite lookup_empty. cbn [default from_option id].
  change (1000000 - 0 <? DEBOUNCE_SECONDS)%Z with false. cbv iota.
  by rewrite Hw.
Qed.

(** C3.  Two notifications for run42.zip, 200 ms apart, while the file is
    still growing: the first call records its own starting time and returns
    2500 ms later, the second event is handled then, more than
    [DEBOUNCE_SECONDS] after the recorded time, and is submitted as well.
    Two tasks are submitted for the one write. *)
Theorem C3_duplicate_notifications_submit_twice :
  let first := run 30 (growing_until 1000500)
                 [Notify 1000000 run42_created] (init_state 1000000) in
  let both := run 30 (growing_until 1000500)
                [Notify 1000000 run42_created; Notify 1000200 run42_created]
                (init_state 1000000) in
  submitted <$> first = Some [run42] ∧
  clock <$> first = Some 1002500%Z ∧
  (first ≫= fun st => _last_processed st !! run42) = Some 1000000%Z ∧
  submitted <$> both = Some [run42; run42].
Proof. vm_compute. by repeat split. Qed.

(** C8, as stated, fails: a second notification for run42.zip, 1500 ms
    after the first task was submitted and before that task has finished,
    puts a second task for the same path in flight. *)
Lemma C8_two_tasks_in_flight_for_one_path :
  in_flight <$> run 30 (growing_until 1000500)
                  [Notify 1000000 run42_created]
                  (init_state 1000000)
  = Some [run42] ∧
  clock <$> run 30 (growing_until 1000500)
              [Notify 1000000 run42_created]
              (init_state 1000000)
  = Some 1002500%Z ∧
  in_flight <$> run 30 (growing_until 1000500)
                  [Notify 1000000 run42_created; Notify 1004000 run42_created]
                  (init_state 1000000)
  = Some [run42; run42] ∧
  ¬ NoDup [run42; run42].
Proof.
  split; [by vm_compute|]. split; [by vm_compute|]. split; [by vm_compute|].
  intros Hnd. apply NoDup_cons in Hnd as [Hnot _]. apply Hnot. by left.
Qed.

(** C8 (amended).  [_enqueue] keeps no record of the tasks in flight and
    decides the same whatever they are.  It submits a task for a path only
    when the call starts at least [DEBOUNCE_SECONDS] after the starting time
    recorded for the last submission for that path and the probe has
    answered [True], at least the stability timeout later; the task is then
    added to those in flight, next to any earlier task for the same path. *)
Theorem C8_submission_ignores_tasks_in_flight
    fuel sizes archive st st' running :
  _enqueue fuel sizes archive st = Some st' →
  (∃ st'',
     _enqueue fuel sizes archive
       (mkState (clock st) (_last_processed st) (submitted st) running)
     = Some st'' ∧
     clock st'' = clock st' ∧
     _last_processed st'' = _last_processed st' ∧
     submitted st'' = submitted st') ∧
  (submitted st' = submitted st ∨ submitted st' = submitted st ++ [archive]) ∧
  (submitted st' = submitted st ++ [archive] →
   (DEBOUNCE_SECONDS
    ≤ clock st - default 0%Z (_last_processed st !! archive))%Z ∧
   (clock st + default_timeout ≤ clock st')%Z ∧
   _last_processed st' !! archive = Some (clock st) ∧
   in_flight st' = in_flight st ++ [archive]).
Proof.
  intros He. split; [|split].
  - revert He. unfold _enqueue. cbn [clock _last_processed submitted in_flight].
    destruct (clock st - default 0%Z (_last_processed st !! archive)
              <? DEBOUNCE_SECONDS)%Z.
    + intros [= <-]. by eexists.
    + destruct (_wait_until_stable fuel (sizes archive) default_timeout
                  default_poll_interval (clock st)) as [[[] T]|]; [| |done];
        intros [= <-]; by eexists.
  - apply enqueue_cases in He
      as [[_ ->] | [(T & _ & _ & ->) | (T & _ & _ & ->)]];
      [by left | by left | by right].
  - intros Hsub.
    apply enqueue_cases in He
      as [[_ ->] | [(T & _ & _ & ->) | (T & Hge & Hs & ->)]].
    + apply (f_equal length) in Hsub. rewrite length_app in Hsub.
      simpl in Hsub. lia.
    + apply (f_equal length) in Hsub. rewrite length_app in Hsub.
      simpl in Hsub. lia.
    + apply stable_window_later in Hs; [|done].
      cbn [clock _last_processed in_flight].
      by rewrite lookup_insert_eq.
Qed.

Lemma C8_witness :
  ∃ st', _enqueue 30 (growing_until 1000500) run42
           (mkState 1002500 (<[run42 := 1000000%Z]> ∅) [run42] [run42])
         = Some st' ∧
         in_flight st' = [run42; run42].
Proof.
  pose (st' := mkState 1004500 (<[run42 := 1002500%Z]> (<[run42 := 1000000%Z]> ∅))
                 [run42; run42] [run42; run42]).
  assert (_enqueue 30 (growing_until 1000500) run42
            (mkState 1002500 (<[run42 := 1000000%Z]> ∅) [run42] [run42])
          = Some st') as He by (vm_compute; reflexivity).
  exists st'. split; [exact He|].
  destruct (C8_submission_ignores_tasks_in_flight _ _ _ _ _ [] He)
    as (_ & _ & Hsub).
  destruct (Hsub eq_refl) as (_ & _ & _ & Hin). exact Hin.
Defined.

(** ** Further properties and examples *)

(** Under [_process_zip] every written file lies strictly inside the output
    root, in its [fail] directory. *)
Lemma process_zip_writes_inside_root disk root_out archive :
  Forall (fun w => strictly_inside root_out w.1 ∧
                   parent w.1 = root_out // "fail")
         (artifacts_of_archive disk root_out archive).
Proof.
  unfold artifacts_of_archive.
  destruct (disk !! archive) as [[|members]|]; try by constructor.
  eapply Forall_impl; [apply artifacts_confined|].
  intros w (m & _ & _ & _ & _ & Hpar & Hin). split; [|done].
  eapply strictly_inside_trans; [|exact Hin].
  by apply truediv_plain_inside.
Qed.

(** Without the [try] of Observer_v3, the exception of a corrupt archive
    escapes [_process_zip] of Observer_v2 and nothing is printed. *)
Example process_zip_v2_lets_exception_escape :
  let r := Observer_v2._process_zip
             (<[run42 := NotAZip]> ∅) out_root run42 fresh_daemon in
  r.2 = Some BadZipFile ∧ stderr r.1 = [].
Proof. by vm_compute. Qed.

Example name_of_traversal :
  name (Path_of "../../etc/cron.d/evil.LOG") = "evil.LOG".
Proof. reflexivity. Qed.

Example suffix_is_case_preserving :
  suffix (Path_of "/tmp/dir1/run42.ZIP") = ".ZIP".
Proof. reflexivity. Qed.

Example suffix_of_dotfile : suffix (Path_of "/tmp/dir1/.zip") = EmptyString.
Proof. reflexivity. Qed.

(** Events for directories and for files without the [.zip] suffix leave
    the handler as it was. *)
Lemma handle_event_ignores_other_suffix fuel sizes path_str st :
  lower (suffix (Path_of path_str)) ≠ ".zip" →
  _handle_event fuel sizes path_str st = Some st.
Proof.
  intros H. unfold _handle_event.
  by destruct (String.eqb_spec (lower (suffix (Path_of path_str))) ".zip").
Qed.

Lemma dispatch_ignores_directories fuel sizes event st :
  is_directory event = true → dispatch fuel sizes event st = Some st.
Proof.
  intros H. unfold dispatch, on_created, on_modified, on_moved.
  rewrite H. by destruct (kind event).
Qed.

(** A file that stays as it is passes the probe after exactly one timeout. *)
Example stable_file_is_submitted :
  _enqueue 30 (growing_until 0) run42 (init_state 1000000)
  = Some (mkState 1002000 (<[run42 := 1000000%Z]> ∅) [run42] [run42]).
Proof. by vm_compute. Qed.

(** A file that is gone at the third poll is abandoned there. *)
Example vanished_file_is_abandoned :
  _enqueue 30 (fun _ t => if (t <? 1000300)%Z then Some 7%Z else None)
    run42 (init_state 1000000)
  = Some (mkState 1000300 ∅ [] []).
Proof. by vm_compute. Qed.

(* ===================================================================== *)
(** * Further properties of the code *)
(* ===================================================================== *)

(** ** The predicate *)

Lemma bytes_lower_length buf : length (bytes_lower buf) = length buf.
Proof. unfold bytes_lower. apply length_map. Qed.

Lemma ci_contains_length keyword buf :
  ci_contains keyword buf → (length keyword ≤ length buf)%nat.
Proof.
  intros (pre & w & post & -> & <-).
  rewrite !length_app, bytes_lower_length. lia.
Qed.

(** X1.  A buffer of fewer than four bytes, the empty one included, never
    holds the keyword. *)
Theorem X1_short_buffer_never_matches buf :
  (length buf < 4)%nat → Observer_v3._contains_fail buf = false.
Proof.
  intros Hlen. destruct (Observer_v3._contains_fail buf) eqn:Hc; [|done].
  apply contains_fail_v3_spec, ci_contains_length in Hc.
  change (length (b "fail")) with 4%nat in Hc. lia.
Qed.

Lemma X1_witness : Observer_v3._contains_fail (b "FAI") = false.
Proof. apply X1_short_buffer_never_matches. simpl. lia. Defined.

Lemma ci_contains_part k1 k2 k3 buf :
  ci_contains (k1 ++ k2 ++ k3) buf → ci_contains k2 buf.
Proof.
  intros (pre & w & post & -> & Hw). unfold bytes_lower in Hw.
  apply map_eq_app in Hw as (w1 & w23 & -> & Hw1 & Hw).
  apply map_eq_app in Hw as (w2 & w3 & -> & Hw2 & Hw3).
  exists (pre ++ w1), w2, (w3 ++ post). split; [|done].
  by rewrite <- !app_assoc.
Qed.

(** X2.  Whatever the predicate of Observer.py accepts, the predicate of
    Observer_v3.py accepts too: a buffer holding [test failed] holds
    [fail]. *)
Theorem X2_v1_keyword_implies_v3_keyword buf :
  Observer._contains_fail buf = true → Observer_v3._contains_fail buf = true.
Proof.
  intros H. apply contains_fail_v1_spec in H. apply contains_fail_v3_spec.
  by apply (ci_contains_part (b "test ") (b "fail") (b "ed")).
Qed.

Lemma X2_witness : Observer_v3._contains_fail (b "unit TEST Failed") = true.
Proof. apply X2_v1_keyword_implies_v3_keyword. reflexivity. Defined.

(** ** The extraction loop: what it reads and what it leaves alone *)

Lemma scan_members_filtered_reads contains_fail ms ms' :
  same_filtered_reads ms ms' →
  ∀ out_dir fs,
    scan_members contains_fail ms out_dir fs
    = scan_members contains_fail ms' out_dir fs.
Proof.
  induction 1 as [|m m' ms ms' (Hn & Hd & Hr) _ IH]; intros out_dir fs;
    [done|].
  rewrite !scan_members_cons.
  assert (scanned m' = scanned m) as Hs by (unfold scanned; by rewrite Hn, Hd).
  rewrite Hs. destruct (scanned m) eqn:Hsm; [|apply IH].
  rewrite <- (Hr eq_refl), <- Hn. destruct (read m) as [buf|e]; [|done].
  destruct (contains_fail buf); [|apply IH]. cbv zeta. by rewrite IH.
Qed.

(** X3.  Entries outside the filter (no [.log] suffix, or a directory) are
    never opened: whether such an entry can be read, and what it holds, does
    not change the outcome of the run. *)
Theorem X3_unfiltered_entries_are_never_read
    disk disk' archive ms ms' out_dir fs :
  disk !! archive = Some (Zip ms) →
  disk' !! archive = Some (Zip ms') →
  same_filtered_reads ms ms' →
  Observer_v3.extract_failed_logs disk archive out_dir fs
  = Observer_v3.extract_failed_logs disk' archive out_dir fs.
Proof.
  intros Hd Hd' Hsame.
  unfold Observer_v3.extract_failed_logs, extract_failed_logs_with, ZipFile.
  rewrite Hd, Hd'. by apply scan_members_filtered_reads.
Qed.

Lemma X3_witness :
  Observer_v3.extract_failed_logs
    (disk_of [mkZipInfo "core.bin" false (Raise BadZipFile); boot_log])
    run42 fail_dir empty_fs
  = Observer_v3.extract_failed_logs
      (disk_of [mkZipInfo "core.bin" false (Ok (b "fail")); boot_log])
      run42 fail_dir empty_fs.
Proof.
  apply (X3_unfiltered_entries_are_never_read _ _ _
           [mkZipInfo "core.bin" false (Raise BadZipFile); boot_log]
           [mkZipInfo "core.bin" false (Ok (b "fail")); boot_log]).
  - reflexivity.
  - reflexivity.
  - repeat constructor; simpl; intros; discriminate.
Defined.

Lemma name_truediv_plain p c : plain_component c = true → name (p // c) = c.
Proof.
  intros H. rewrite (truediv_plain _ _ H). unfold name. cbn [parts].
  apply last_last.
Qed.

(** X4.  A run changes no file but the destinations: a path that is not a
    direct child of [out_dir], or whose name does not end in [.log] in any
    case, holds after the run what it held before, however the run ends. *)
Theorem X4_other_files_are_untouched disk archive out_dir fs p :
  parent p ≠ out_dir ∨ endswith (lower (name p)) ".log" = false →
  files (fs_after (Observer_v3.extract_failed_logs disk archive out_dir fs))
    !! p = files fs !! p.
Proof.
  intros Hp. unfold Observer_v3.extract_failed_logs.
  destruct (disk !! archive) as [[|members]|] eqn:Hd.
  - by destruct (extract_not_opened Observer_v3._contains_fail disk archive
                   out_dir fs) as (_ & -> & _); [by rewrite Hd|].
  - destruct (extract_trace Observer_v3._contains_fail disk archive out_dir
                fs members Hd) as (_ & Hf & _).
    rewrite Hf, apply_writes_lookup.
    destruct (last _) as [w|] eqn:Hlast; [exfalso|done].
    apply last_Some_elem_of, list_elem_of_filter in Hlast as [Hw Hin].
    pose proof (artifacts_confined Observer_v3._contains_fail out_dir members)
      as Hall.
    rewrite Forall_forall in Hall.
    destruct (Hall w Hin) as (m & Hm & _ & Hdest & Hplain & Hpar & _).
    apply list_elem_of_omap in Hin as (m0 & _ & Ha).
    destruct w as [wp wb]. cbn [fst snd] in *. subst wp.
    apply artifact_of_Some in Ha as (Hlog & _ & _ & _ & Hdest0).
    destruct (name_of_log_filename _ Hlog) as [Hplain0 Hlog0].
    destruct Hp as [Hp | Hp]; [done|].
    rewrite Hdest0, (name_truediv_plain _ _ Hplain0) in Hp. congruence.
  - by destruct (extract_not_opened Observer_v3._contains_fail disk archive
                   out_dir fs) as (_ & -> & _); [by rewrite Hd|].
Qed.

Lemma X4_witness :
  files (fs_after (Observer_v3.extract_failed_logs
                     (disk_of [boot_log; env_log]) run42 fail_dir
                     (mkFS ∅ {[ fail_dir // "notes.txt" := b "keep" ]} [])))
    !! (fail_dir // "notes.txt") = Some (b "keep").
Proof.
  rewrite X4_other_files_are_untouched; [reflexivity|]. right. reflexivity.
Defined.

Lemma apply_writes_idempotent ws fm :
  apply_writes ws (apply_writes ws fm) = apply_writes ws fm.
Proof.
  apply map_eq. intros p. rewrite apply_writes_lookup.
  destruct (last (filter (fun w => w.1 = p) ws)) as [w|] eqn:Hl; [|done].
  by rewrite apply_writes_lookup, Hl.
Qed.

Lemma scan_members_raised_indep contains_fail members out_dir : ∀ fs fs',
  raised (scan_members contains_fail members out_dir fs)
  = raised (scan_members contains_fail members out_dir fs').
Proof.
  induction members as [|m rest IH]; intros fs fs'; [done|].
  rewrite !scan_members_cons. destruct (scanned m); [|apply IH].
  destruct (read m) as [buf|e]; [|done].
  destruct (contains_fail buf); [|apply IH]. cbv zeta. cbn [yield raised].
  apply IH.
Qed.

(** X5.  Processing the same archive a second time changes nothing: the
    files after the second run are those after the first, and the second
    run yields the same paths and ends the same way. *)
Theorem X5_second_run_changes_nothing disk archive out_dir fs :
  let o1 := Observer_v3.extract_failed_logs disk archive out_dir fs in
  let o2 := Observer_v3.extract_failed_logs disk archive out_dir
              (fs_after o1) in
  files (fs_after o2) = files (fs_after o1) ∧
  yielded o2 = yielded o1 ∧
  raised o2 = raised o1.
Proof.
  intros o1 o2. subst o1 o2. unfold Observer_v3.extract_failed_logs.
  destruct (disk !! archive) as [[|members]|] eqn:Hd.
  - unfold extract_failed_logs_with, ZipFile. by rewrite Hd.
  - destruct (extract_trace Observer_v3._contains_fail disk archive out_dir
                fs members Hd) as (_ & Hf & Hy).
    destruct (extract_trace Observer_v3._contains_fail disk archive out_dir
                (fs_after (extract_failed_logs_with Observer_v3._contains_fail
                             disk archive out_dir fs)) members Hd)
      as (_ & Hf2 & Hy2).
    rewrite Hf2, Hy2, Hf, Hy, apply_writes_idempotent.
    split; [done|]. split; [done|].
    unfold extract_failed_logs_with, ZipFile. rewrite Hd.
    apply scan_members_raised_indep.
  - unfold extract_failed_logs_with, ZipFile. by rewrite Hd.
Qed.





(** ** The task boundary, for every archive *)




Example two_archives_same_member_name :
  files (tree (worker
                 (Observer_v3._process_zip
                    (<[Path_of "/tmp/dir2/run43.zip" := Zip [second_boot_log]]>
                       (disk_of [first_boot_log])) out_root)
                 [run42; Path_of "/tmp/dir2/run43.zip"] fresh_daemon).1)
    !! (fail_dir // "boot.log") = Some (b "fail 2").
Proof. by vm_compute. Qed.

(** ** The probe: edge cases and termination *)

(** X9.  With a timeout of zero or less the loop body never runs: a file
    that exists at the entry is accepted at once, without a poll. *)
Theorem X9_nonpositive_timeout_accepts_at_once
    fuel p timeout poll_interval t0 size :
  p t0 = Some size → (timeout ≤ 0)%Z →
  _wait_until_stable (S fuel) p timeout poll_interval t0 = Some (true, t0).
Proof.
  intros Hp Hto. unfold _wait_until_stable. rewrite Hp. cbn [wait_loop].
  replace (t0 - t0)%Z with 0%Z by lia.
  by destruct (Z.ltb_spec 0 timeout) as [?|_]; [lia|].
Qed.

Lemma X9_witness :
  _wait_until_stable 1 (ever_growing run42) 0 100 1000000
  = Some (true, 1000000%Z).
Proof.
  apply (X9_nonpositive_timeout_accepts_at_once 0 _ 0 100 1000000 1000000).
  - reflexivity.
  - lia.
Defined.

Section ProbeTermination.
Variable p : History.
Variables timeout poll_interval : Z.
Hypothesis poll_pos : (0 < poll_interval)%Z.

Lemma wait_loop_constant size t0 fuel : ∀ n : Z,
  (∀ t, (t0 ≤ t)%Z → p t = Some size) →
  (0 ≤ n)%Z →
  (n = 0 ∨ (n - 1) * poll_interval < timeout)%Z →
  (Z.to_nat (timeout - n * poll_interval) < fuel)%nat →
  ∃ n' : Z,
    (n ≤ n')%Z ∧
    wait_loop fuel p timeout poll_interval size t0 (t0 + n * poll_interval)
    = Some (true, (t0 + n' * poll_interval)%Z) ∧
    (timeout ≤ n' * poll_interval)%Z ∧
    (n' = 0 ∨ (n' - 1) * poll_interval < timeout)%Z.
Proof.
  induction fuel as [|fuel IH]; intros n Hp Hn Hprev Hfuel; [lia|].
  cbn [wait_loop].
  replace (t0 + n * poll_interval - t0)%Z with (n * poll_interval)%Z by lia.
  destruct (Z.ltb_spec (n * poll_interval) timeout) as [Hlt|Hge].
  - assert (0 ≤ n * poll_interval)%Z by (apply Z.mul_nonneg_nonneg; lia).
    rewrite Hp by lia. rewrite Z.eqb_refl. cbn [negb].
    replace (t0 + n * poll_interval + poll_interval)%Z
      with (t0 + (n + 1) * poll_interval)%Z by lia.
    destruct (IH (n + 1)%Z) as (n' & Hle & Hw & Hto & Hlast);
      [done | lia | right; by replace (n + 1 - 1)%Z with n by lia | lia |].
    exists n'. split; [lia | done].
  - exists n. split; [lia | done].
Qed.

(** X10.  For a file that exists and keeps its size from the entry on, the
    probe answers [True] at the first poll instant that is at least
    [timeout] after the entry: not before the timeout, and less than one
    poll interval after it. *)
Theorem X10_constant_file_is_accepted_at_the_timeout size t0 fuel :
  (∀ t, (t0 ≤ t)%Z → p t = Some size) →
  (0 < timeout)%Z →
  (Z.to_nat timeout < fuel)%nat →
  ∃ n : Z,
    _wait_until_stable fuel p timeout poll_interval t0
    = Some (true, (t0 + n * poll_interval)%Z) ∧
    (timeout ≤ n * poll_interval < timeout + poll_interval)%Z.
Proof.
  intros Hp Hto Hfuel. unfold _wait_until_stable. rewrite Hp by lia.
  destruct (wait_loop_constant size t0 fuel 0 Hp) as (n & _ & Hw & Hge & Hlast);
    [lia | by left | lia |].
  replace (t0 + 0 * poll_interval)%Z with t0 in Hw by lia.
  exists n. split; [done|]. lia.
Qed.

Lemma wait_loop_after_stable fuel size sz start now :
  (∀ t, (now < t)%Z → p t = Some sz) →
  (start ≤ now)%Z →
  (Z.to_nat timeout + 1 < fuel)%nat →
  ∃ T, wait_loop fuel p timeout poll_interval size start now = Some (true, T).
Proof.
  intros Hp Hle Hfuel. destruct fuel as [|fuel]; [lia|]. cbn [wait_loop].
  destruct (Z.ltb_spec (now - start) timeout) as [Hlt|Hge]; [|by eexists].
  rewrite Hp by lia. destruct (Z.eqb_spec sz size) as [->|Hne]; cbn [negb].
  - apply (wait_loop_stable p timeout poll_interval poll_pos);
      [lia | intros t Ht; apply Hp; lia | lia].
  - apply (wait_loop_stable p timeout poll_interval poll_pos);
      [lia | intros t Ht; apply Hp; lia | lia].
Qed.

Lemma wait_loop_eventually s sz fuel : ∀ size start now,
  (∀ t, (s ≤ t)%Z → p t = Some sz) →
  (start ≤ now)%Z →
  (Z.to_nat (s - now) + Z.to_nat timeout + 1 < fuel)%nat →
  ∃ r, wait_loop fuel p timeout poll_interval size start now = Some r.
Proof.
  induction fuel as [|fuel IH]; intros size start now Hp Hle Hfuel; [lia|].
  destruct (Z.le_gt_cases s now) as [Hs|Hs].
  - destruct (wait_loop_after_stable (S fuel) size sz start now) as [T HT];
      [intros t Ht; apply Hp; lia | done | lia |]. by eexists.
  - cbn [wait_loop].
    destruct (now - start <? timeout)%Z; [|by eexists].
    destruct (p (now + poll_interval)%Z) as [st_size|]; [|by eexists].
    destruct (negb (st_size =? size)%Z); apply IH; try done; lia.
Qed.

(** X11.  The probe answers for every file that stops changing: if from
    some instant on the file exists with one size, [_wait_until_stable]
    returns, given fuel for the polls up to that instant and one window
    more; and if no poll misses the file the answer is [True]. *)
Theorem X11_probe_answers_once_the_file_settles t0 s sz fuel :
  (∀ t, (s ≤ t)%Z → p t = Some sz) →
  (Z.to_nat (s - t0) + Z.to_nat timeout + 1 < fuel)%nat →
  ∃ ok T,
    _wait_until_stable fuel p timeout poll_interval t0 = Some (ok, T) ∧
    ((∀ t, (t0 ≤ t)%Z → p t ≠ None) → ok = true).
Proof.
  intros Hp Hfuel.
  assert (∃ r, _wait_until_stable fuel p timeout poll_interval t0 = Some r)
    as [[ok T] Hr].
  { unfold _wait_until_stable. destruct (p t0) as [size|]; [|by eexists].
    by apply (wait_loop_eventually s sz). }
  exists ok, T. split; [done|]. intros Hthere.
  apply wait_until_stable_sound in Hr. destruct ok; [done|].
  destruct Hr as (n & Hn & -> & Hnone & _). exfalso.
  apply (Hthere (t0 + n * poll_interval)%Z); [|done].
  assert (0 ≤ n * poll_interval)%Z by (apply Z.mul_nonneg_nonneg; lia). lia.
Qed.

End ProbeTermination.

Lemma X10_witness :
  ∃ n : Z,
    _wait_until_stable 2001 (growing_until 0 run42) default_timeout
      default_poll_interval 1000000
    = Some (true, (1000000 + n * default_poll_interval)%Z) ∧
    (default_timeout ≤ n * default_poll_interval
     < default_timeout + default_poll_interval)%Z.
Proof.
  apply (X10_constant_file_is_accepted_at_the_timeout
           (growing_until 0 run42) default_timeout default_poll_interval
           eq_refl 0%Z 1000000%Z 2001).
  - intros t Ht. unfold growing_until. f_equal. lia.
  - reflexivity.
  - vm_compute. lia.
Defined.

Lemma X11_witness :
  ∃ ok T,
    _wait_until_stable 2503 (growing_until 1000500 run42) default_timeout
      default_poll_interval 1000000 = Some (ok, T) ∧
    ((∀ t, (1000000 ≤ t)%Z → growing_until 1000500 run42 t ≠ None) →
     ok = true).
Proof.
  apply (X11_probe_answers_once_the_file_settles
           (growing_until 1000500 run42) default_timeout default_poll_interval
           eq_refl 1000000%Z 1000500%Z 1000500%Z 2503).
  - intros t Ht. unfold growing_until. f_equal. lia.
  - vm_compute. lia.
Defined.

(** ** The handler over every run *)

(** X12.  In every state a freshly built handler reaches, the debounce test
    of [_enqueue] is false: the recorded time of a path lies at least a full
    stability timeout behind the clock, so the next call for any path is
    decided by the probe alone. *)
Theorem X12_debounce_test_never_fires fuel sizes steps t0 st :
  (DEBOUNCE_SECONDS ≤ t0)%Z →
  run fuel sizes steps (init_state t0) = Some st →
  settled st ∧
  ∀ fuel' sizes' archive,
    _enqueue fuel' sizes' archive st =
    match _wait_until_stable fuel' (sizes' archive)
            default_timeout default_poll_interval (clock st) with
    | None => None
    | Some (false, t) =>
        Some (mkState t (_last_processed st) (submitted st) (in_flight st))
    | Some (true, t) =>
        Some (mkState t (<[archive := clock st]> (_last_processed st))
                (submitted st ++ [archive]) (in_flight st ++ [archive]))
    end.
Proof.
  intros Ht0 Hrun.
  assert (settled st) as Hst
    by (eapply run_settled; [by apply init_state_settled | exact Hrun]).
  split; [done|]. intros fuel' sizes' archive.
  by apply enqueue_settled_is_probe.
Qed.

Lemma X12_witness :
  settled (mkState 1002500 (<[run42 := 1000000%Z]> ∅) [run42] [run42]).
Proof.
  apply (X12_debounce_test_never_fires 30 (growing_until 1000500)
           [Notify 1000000 run42_created] 1000000).
  - unfold DEBOUNCE_SECONDS. lia.
  - vm_compute. reflexivity.
Defined.

Lemma remove_first_subseteq archive l : remove_first archive l ⊆ l.
Proof.
  induction l as [|x l IH]; simpl; [done|].
  destruct (decide (x = archive)).
  - by apply list_subseteq_cons.
  - by apply list_subseteq_skip.
Qed.

Lemma enqueue_books fuel sizes archive st st' :
  books_agree st → _enqueue fuel sizes archive st = Some st' →
  books_agree st' ∧ (clock st ≤ clock st')%Z ∧
  submitted st `prefix_of` submitted st'.
Proof.
  intros Hb He. pose proof Hb as (Hsub & Htime & Hfl).
  apply enqueue_cases in He
    as [[_ ->] | [(T & _ & Hv & ->) | (T & _ & Hs & ->)]].
  - split; [done | split; [lia | done]].
  - apply vanished_at_later in Hv; [|done]. cbn [clock submitted].
    split; [|by split]. split; [done|]. split; [|done].
    intros a t Ht. cbn [_last_processed] in Ht. specialize (Htime _ _ Ht).
    cbn [clock]. lia.
  - apply stable_window_later in Hs; [|done]. cbn [clock submitted].
    unfold default_timeout in Hs.
    split; [|split; [lia | by apply prefix_app_r]].
    split; [|split]; cbn [clock submitted _last_processed in_flight].
    + intros a. rewrite elem_of_app, list_elem_of_singleton.
      destruct (decide (archive = a)) as [->|Hne].
      * rewrite lookup_insert_eq. split; [by eexists | by right].
      * rewrite lookup_insert_ne by done. rewrite <- Hsub.
        split; [intros [?|?]; [done | congruence] | by left].
    + intros a t Ht. destruct (decide (archive = a)) as [->|Hne].
      * rewrite lookup_insert_eq in Ht. injection Ht as <-. lia.
      * rewrite lookup_insert_ne in Ht by done. specialize (Htime _ _ Ht). lia.
    + intros a [Ha|Ha]%elem_of_app; apply elem_of_app; [left | by right].
      by apply Hfl.
Qed.

Lemma step_books fuel sizes s st st' :
  books_agree st → step fuel sizes s st = Some st' →
  books_agree st' ∧ (clock st ≤ clock st')%Z ∧
  submitted st `prefix_of` submitted st'.
Proof.
  intros Hb. destruct s as [arrival event | archive]; cbn [step].
  - set (st0 := mkState (Z.max (clock st) arrival) (_last_processed st)
                  (submitted st) (in_flight st)).
    assert (books_agree st0) as Hb0.
    { destruct Hb as (Hsub & Htime & Hfl). split; [done|]. split; [|done].
      intros a t Ht. specialize (Htime _ _ Ht). cbn [st0 clock]. lia. }
    assert (∀ st1, Some st0 = Some st1 →
              books_agree st1 ∧ (clock st ≤ clock st1)%Z ∧
              submitted st `prefix_of` submitted st1) as Hsame.
    { intros st1 [= <-]. split; [done|]. cbn [st0 clock submitted].
      split; [lia | done]. }
    assert (∀ path st1, _enqueue fuel sizes path st0 = Some st1 →
              books_agree st1 ∧ (clock st ≤ clock st1)%Z ∧
              submitted st `prefix_of` submitted st1) as Henq.
    { intros path st1 He.
      destruct (enqueue_books _ _ _ _ _ Hb0 He) as (? & Hc & Hp).
      cbn [st0 clock submitted] in Hc, Hp. split; [done|]. split; [lia|done]. }
    unfold dispatch, on_created, on_modified, on_moved, _handle_event.
    destruct (kind event), (is_directory event); try apply Hsame;
      match goal with
      | |- context [negb ?c] => destruct c; cbn [negb]
      end; try apply Hsame; apply Henq.
  - intros [= <-]. cbn [clock submitted]. split; [|by split].
    destruct Hb as (Hsub & Htime & Hfl). split; [done|]. split; [done|].
    intros a Ha. cbn [in_flight] in Ha. apply Hfl.
    by apply (remove_first_subseteq archive).
Qed.

Lemma init_state_books t0 : books_agree (init_state t0).
Proof.
  split; [|split]; cbn [init_state submitted _last_processed in_flight].
  - intros a. rewrite lookup_empty. split.
    + by intros ?%elem_of_nil.
    + by intros [? [=]].
  - intros a t Ht. by rewrite lookup_empty in Ht.
  - by intros a ?%elem_of_nil.
Qed.

(** X13.  Over every run of a freshly built handler the books agree: a
    path has a recorded time exactly when a task was submitted for it, no
    recorded time is ahead of the clock, and every task in flight was
    submitted.  The clock never goes back and submissions are only added. *)
Theorem X13_handler_books_agree fuel sizes steps : ∀ st st',
  books_agree st →
  run fuel sizes steps st = Some st' →
  books_agree st' ∧ (clock st ≤ clock st')%Z ∧
  submitted st `prefix_of` submitted st'.
Proof.
  induction steps as [|s rest IH]; intros st st' Hb; cbn [run].
  - intros [= <-]. split; [done | split; [lia | done]].
  - destruct (step fuel sizes s st) as [st1|] eqn:Hs; [|done].
    intros Hrun. destruct (step_books _ _ _ _ _ Hb Hs) as (Hb1 & Hc1 & Hp1).
    destruct (IH _ _ Hb1 Hrun) as (Hb' & Hc' & Hp').
    split; [done|]. split; [lia|]. by etrans.
Qed.

Lemma X13_witness :
  books_agree (mkState 1002500 (<[run42 := 1000000%Z]> ∅) [run42] []).
Proof.
  apply (X13_handler_books_agree 30 (growing_until 1000500)
           [Notify 1000000 run42_created; Finish run42]
           (init_state 1000000)).
  - apply init_state_books.
  - vm_compute. reflexivity.
Defined.

(** ** Which events the handler takes *)

Lemma lower_ascii_dot c : Ascii.eqb (lower_ascii c) dot = Ascii.eqb c dot.
Proof. by destruct c as [[] [] [] [] [] [] [] []]. Qed.

Lemma lower_length s : String.length (lower s) = String.length s.
Proof. induction s as [|c s IH]; simpl; [done | by rewrite IH]. Qed.

Lemma append_length s1 s2 :
  String.length (s1 +:+ s2) = (String.length s1 + String.length s2)%nat.
Proof. induction s1 as [|c s1 IH]; simpl; [done | by rewrite IH]. Qed.

Lemma rfind_dot_lower_None s : rfind_dot (lower s) = None → rfind_dot s = None.
Proof.
  induction s as [|c s IH]; [done|]. cbn [lower rfind_dot].
  destruct (rfind_dot (lower s)) as [[i tl]|]; [done|].
  rewrite (IH eq_refl), lower_ascii_dot. by destruct (Ascii.eqb c dot).
Qed.

Lemma rfind_dot_split s i tl :
  rfind_dot s = Some (i, tl) →
  ∃ pre, s = pre +:+ tl ∧ String.length pre = i.
Proof.
  revert i. induction s as [|c s IH]; intros i; [done|]. cbn [rfind_dot].
  destruct (rfind_dot s) as [[j tl']|].
  - intros [= <- <-]. destruct (IH j eq_refl) as (pre & -> & Hlen).
    exists (String c pre). by rewrite <- Hlen.
  - destruct (Ascii.eqb c dot); [|done]. intros [= <- <-].
    by exists EmptyString.
Qed.

Lemma rfind_dot_append pre tl j tl' :
  rfind_dot tl = Some (j, tl') →
  rfind_dot (pre +:+ tl) = Some ((String.length pre + j)%nat, tl').
Proof.
  intros H. induction pre as [|c pre IH]; [done|].
  simpl. by rewrite IH.
Qed.

Lemma suffix_zip_name p : lower (suffix p) = ".zip" ↔ zip_name (name p).
Proof.
  unfold suffix, zip_name. split.
  - destruct (rfind_dot (name p)) as [[i tl]|] eqn:Hr; [|done].
    destruct (0 <? i)%nat eqn:Hi; [|done].
    destruct (i <? String.length (name p) - 1)%nat; [|done]. cbn [andb].
    intros Hlow. destruct (rfind_dot_split _ _ _ Hr) as (pre & Hnm & Hlen).
    exists pre, tl. split; [done|]. split; [|done].
    apply Nat.ltb_lt in Hi. intros ->. simpl in Hlen. lia.
  - intros (stem & ext & Hnm & Hstem & Hext). rewrite Hnm.
    assert (String.length ext = 4%nat) as Hlen
      by (by rewrite <- lower_length, Hext).
    destruct ext as [|c0 rest]; [done|].
    cbn [lower] in Hext. injection Hext as Hc0 Hrest.
    assert (rfind_dot rest = None) as Hnone
      by (apply rfind_dot_lower_None; by rewrite Hrest).
    assert (Ascii.eqb c0 dot = true) as Hdot
      by (by rewrite <- lower_ascii_dot, Hc0).
    assert (rfind_dot (String c0 rest) = Some (0%nat, String c0 rest)) as Hr
      by (cbn [rfind_dot]; by rewrite Hnone, Hdot).
    rewrite (rfind_dot_append stem _ _ _ Hr), append_length, Hlen.
    assert (0 < String.length stem)%nat
      by (destruct stem; [done | simpl; lia]).
    destruct (Nat.ltb_spec 0 (String.length stem + 0)) as [_|?]; [|lia].
    destruct (Nat.ltb_spec (String.length stem + 0)
                (String.length stem + 4 - 1)) as [_|?]; [|lia].
    cbn [andb lower]. by rewrite Hc0, Hrest.
Qed.

(** X14.  [_handle_event] passes a path on to [_enqueue] exactly when its
    last component is a non-empty stem followed by [.zip] in any case.  A
    file named [.zip] alone, or with anything after the [.zip], leaves the
    handler as it was. *)
Theorem X14_handle_event_takes_zip_names_only fuel sizes path_str st :
  (zip_name (name (Path_of path_str)) →
   _handle_event fuel sizes path_str st
   = _enqueue fuel sizes (Path_of path_str) st) ∧
  (¬ zip_name (name (Path_of path_str)) →
   _handle_event fuel sizes path_str st = Some st).
Proof.
  unfold _handle_event. cbv zeta.
  destruct (String.eqb_spec (lower (suffix (Path_of path_str))) ".zip")
    as [Heq|Hne]; cbn [negb].
  - split; [done|]. intros Hnot. exfalso. by apply Hnot, suffix_zip_name.
  - split; [|done]. intros Hz. exfalso. by apply Hne, suffix_zip_name.
Qed.

Lemma X14_witness :
  _handle_event 30 (growing_until 0) "/tmp/dir1/Run42.ZIP" (init_state 1000000)
  = _enqueue 30 (growing_until 0) (Path_of "/tmp/dir1/Run42.ZIP")
      (init_state 1000000).
Proof.
  apply (X14_handle_event_takes_zip_names_only 30 (growing_until 0)
           "/tmp/dir1/Run42.ZIP" (init_state 1000000)).
  exists "Run42", ".ZIP". by repeat split.
Defined.

Example dot_zip_alone_is_ignored :
  _handle_event 30 (growing_until 0) "/tmp/dir1/.zip" (init_state 1000000)
  = Some (init_state 1000000).
Proof. reflexivity. Qed.

Example partial_download_is_ignored :
  _handle_event 30 (growing_until 0) "/tmp/dir1/run42.zip.part"
    (init_state 1000000)
  = Some (init_state 1000000).
Proof. reflexivity. Qed.

(** X15.  Whatever the kind of an event, the handler state changes only
    for an event that is not for a directory and whose path has a zip name;
    a move is judged by its destination alone, so moving a zip file to a
    name without the suffix does nothing and moving any file to a zip name
    is handled like a new zip file. *)
Theorem X15_dispatch_judges_one_path fuel sizes event st :
  dispatch fuel sizes event st =
  (if is_directory event then Some st
   else _handle_event fuel sizes (event_path event) st) ∧
  (is_directory event = true ∨
   ¬ zip_name (name (Path_of (event_path event))) →
   dispatch fuel sizes event st = Some st).
Proof.
  assert (dispatch fuel sizes event st =
          if is_directory event then Some st
          else _handle_event fuel sizes (event_path event) st) as Hd.
  { unfold dispatch, on_created, on_modified, on_moved, event_path.
    by destruct (kind event), (is_directory event). }
  split; [exact Hd|]. rewrite Hd. intros [-> | Hnot]; [done|].
  destruct (is_directory event); [done|]. unfold _handle_event. cbv zeta.
  destruct (String.eqb_spec
              (lower (suffix (Path_of (event_path event)))) ".zip")
    as [Heq|Hne]; [|done].
  exfalso. by apply Hnot, suffix_zip_name.
Qed.

(** ** The log sender *)

Lemma ascii_compare_refl c : Ascii.compare c c = Eq.
Proof. unfold Ascii.compare. apply N.compare_refl. Qed.

Lemma ascii_compare_lt_trans a b' c :
  Ascii.compare a b' = Lt → Ascii.compare b' c = Lt → Ascii.compare a c = Lt.
Proof.
  unfold Ascii.compare. rewrite !N.compare_lt_iff. lia.
Qed.

Lemma string_compare_refl s : String.compare s s = Eq.
Proof.
  induction s as [|c s IH]; [done|]. simpl. by rewrite ascii_compare_refl.
Qed.

Lemma string_compare_lt_trans s1 : ∀ s2 s3,
  String.compare s1 s2 = Lt → String.compare s2 s3 = Lt →
  String.compare s1 s3 = Lt.
Proof.
  induction s1 as [|c1 s1 IH]; intros [|c2 s2] [|c3 s3]; simpl; try done.
  destruct (Ascii.compare c1 c2) eqn:H12; [| |done].
  - apply Ascii.compare_eq_iff in H12 as ->.
    destruct (Ascii.compare c2 c3); [apply IH | done | done].
  - destruct (Ascii.compare c2 c3) eqn:H23; [| |done].
    + apply Ascii.compare_eq_iff in H23 as <-. by rewrite H12.
    + by rewrite (ascii_compare_lt_trans _ _ _ H12 H23).
Qed.

Lemma ltb_irrefl s : String.ltb s s = false.
Proof. unfold String.ltb. by rewrite string_compare_refl. Qed.

Lemma ltb_trans s1 s2 s3 :
  String.ltb s1 s2 = true → String.ltb s2 s3 = true → String.ltb s1 s3 = true.
Proof.
  unfold String.ltb. intros H1 H2.
  destruct (String.compare s1 s2) eqn:H12; try done.
  destruct (String.compare s2 s3) eqn:H23; try done.
  by rewrite (string_compare_lt_trans _ _ _ H12 H23).
Qed.

(** [s2] is not above [s1], and [s1] is below [s3]: [s2] is below [s3]. *)
Lemma ltb_le_lt_trans s1 s2 s3 :
  String.ltb s1 s2 = false → String.ltb s1 s3 = true →
  String.ltb s2 s3 = true.
Proof.
  unfold String.ltb. intros H12 H13.
  destruct (String.compare s1 s2) eqn:Hc; [| done |].
  - apply String.compare_eq_iff in Hc as <-. exact H13.
  - rewrite String.compare_antisym in Hc.
    destruct (String.compare s2 s1) eqn:Hc'; try done.
    destruct (String.compare s1 s3) eqn:Hc3; try done.
    by rewrite (string_compare_lt_trans _ _ _ Hc' Hc3).
Qed.

Lemma ltb_empty s : String.ltb EmptyString s = false → s = EmptyString.
Proof. by destruct s. Qed.

Lemma ltb_asym s1 s2 : String.ltb s1 s2 = true → String.ltb s2 s1 = false.
Proof.
  intros H. destruct (String.ltb s2 s1) eqn:H'; [|done].
  pose proof (ltb_trans _ _ _ H H') as Hc. by rewrite ltb_irrefl in Hc.
Qed.

Section LatestFile.
Variables serial_num file_type : string.
Variable is_cft : bool.

Lemma latest_step_cases acc e :
  faillog.latest_step serial_num file_type is_cft acc e =
  if faillog.qualifies serial_num file_type is_cft e
     && String.ltb (snd acc) (faillog.file_ts (faillog.entry_name e))
  then (Some e, faillog.file_ts (faillog.entry_name e))
  else acc.
Proof.
  unfold faillog.latest_step, faillog.qualifies, faillog.file_ts.
  destruct (faillog.is_file e); [|done]. cbn [negb orb andb].
  destruct (endswith (faillog.entry_name e) file_type); [|done].
  cbn [negb andb].
  destruct (Nat.ltb_spec (length (split_on "_" (faillog.entry_name e))) 5)
    as [Hlt|Hge].
  - by rewrite (proj2 (Nat.leb_gt _ _) Hlt).
  - rewrite (proj2 (Nat.leb_le _ _) Hge). cbn [andb].
    by destruct (String.eqb _ _).
Qed.

Lemma latest_step_inv seen acc e :
  faillog.latest_inv serial_num file_type is_cft seen acc →
  faillog.latest_inv serial_num file_type is_cft (seen ++ [e])
    (faillog.latest_step serial_num file_type is_cft acc e).
Proof.
  intros Hinv. rewrite latest_step_cases.
  destruct (faillog.qualifies serial_num file_type is_cft e) eqn:Hq;
    cbn [andb].
  - destruct (String.ltb acc.2 (faillog.file_ts (faillog.entry_name e)))
      eqn:Hlt.
    + unfold faillog.latest_inv. cbn [fst snd]. split; [done|]. split; [done|].
      split; [intros Hemp; rewrite Hemp in Hlt; by destruct acc.2|].
      exists seen, []. split; [done|]. split; [|by intros ? ?%elem_of_nil].
      intros e' He' Hq'. unfold faillog.latest_inv in Hinv.
      destruct acc.1 as [best|].
      * destruct Hinv as (Hts & _ & _ & before & after & -> & Hb & Ha).
        apply elem_of_app in He' as [He'|He'].
        -- eapply ltb_trans; [by apply Hb | exact Hlt].
        -- apply elem_of_cons in He' as [->|He'].
           ++ by rewrite <- Hts.
           ++ eapply ltb_le_lt_trans; [by apply Ha | exact Hlt].
      * destruct Hinv as (Hts & Hall). rewrite (Hall _ He' Hq').
        by rewrite Hts in Hlt.
    + unfold faillog.latest_inv in *. destruct acc.1 as [best|].
      * destruct Hinv as (Hts & Hqb & Hne & before & after & -> & Hb & Ha).
        split; [done|]. split; [done|]. split; [done|].
        exists before, (after ++ [e]). split; [by rewrite <- app_assoc|].
        split; [done|]. intros e' [He'|He']%elem_of_app Hq'; [by apply Ha|].
        apply list_elem_of_singleton in He' as ->. exact Hlt.
      * destruct Hinv as (Hts & Hall). split; [done|].
        intros e' [He'|He']%elem_of_app Hq'; [by apply Hall|].
        apply list_elem_of_singleton in He' as ->.
        rewrite Hts in Hlt. by apply ltb_empty.
  - unfold faillog.latest_inv in *. destruct acc.1 as [best|].
    + destruct Hinv as (Hts & Hqb & Hne & before & after & -> & Hb & Ha).
      split; [done|]. split; [done|]. split; [done|].
      exists before, (after ++ [e]). split; [by rewrite <- app_assoc|].
      split; [done|]. intros e' [He'|He']%elem_of_app Hq'; [by apply Ha|].
      apply list_elem_of_singleton in He' as ->. congruence.
    + destruct Hinv as (Hts & Hall). split; [done|].
      intros e' [He'|He']%elem_of_app Hq'; [by apply Hall|].
      apply list_elem_of_singleton in He' as ->. congruence.
Qed.

Lemma latest_fold_inv entries : ∀ seen acc,
  faillog.latest_inv serial_num file_type is_cft seen acc →
  faillog.latest_inv serial_num file_type is_cft (seen ++ entries)
    (foldl (faillog.latest_step serial_num file_type is_cft) acc entries).
Proof.
  induction entries as [|e rest IH]; intros seen acc Hinv.
  - by rewrite app_nil_r.
  - cbn [foldl]. replace (seen ++ e :: rest) with ((seen ++ [e]) ++ rest)
      by (by rewrite <- app_assoc).
    apply IH. by apply latest_step_inv.
Qed.

Lemma get_latest_file_inv entries :
  faillog.latest_inv serial_num file_type is_cft entries
    (foldl (faillog.latest_step serial_num file_type is_cft)
       (None, EmptyString) entries).
Proof.
  apply (latest_fold_inv entries [] (None, EmptyString)).
  split; [done|]. by intros e ?%elem_of_nil.
Qed.

End LatestFile.

(** The outcome of the loop, read against the whole listing. *)
Lemma latest_file_max serial_num file_type is_cft entries :
  match (faillog.get_latest_file (Some entries) serial_num file_type
           is_cft).1 with
  | Some best =>
      best ∈ entries ∧
      faillog.qualifies serial_num file_type is_cft best = true ∧
      faillog.file_ts (faillog.entry_name best) ≠ EmptyString ∧
      ∀ e, e ∈ entries →
           faillog.qualifies serial_num file_type is_cft e = true →
           String.ltb (faillog.file_ts (faillog.entry_name best))
             (faillog.file_ts (faillog.entry_name e)) = false
  | None =>
      ∀ e, e ∈ entries →
           faillog.qualifies serial_num file_type is_cft e = true →
           faillog.file_ts (faillog.entry_name e) = EmptyString
  end.
Proof.
  unfold faillog.get_latest_file. cbn [fst].
  pose proof (get_latest_file_inv serial_num file_type is_cft entries) as Hinv.
  unfold faillog.latest_inv in Hinv.
  destruct (foldl _ _ entries).1 as [best|]; [|by destruct Hinv].
  destruct Hinv as (Hts & Hq & Hne & before & after & -> & Hb & Ha).
  rewrite Hts in Hne, Hb, Ha.
  split; [apply elem_of_app; right; by left|]. split; [done|].
  split; [done|]. intros e He Hqe.
  apply elem_of_app in He as [He|He]; [by apply ltb_asym, Hb|].
  apply elem_of_cons in He as [->|He]; [apply ltb_irrefl | by apply Ha].
Qed.

(** X16.  The file [get_latest_file] returns is a file with the suffix, at
    least five [_]-separated fields and the expected serial number as third
    field, and a time stamp (fourth and fifth field) that is not empty; every
    such entry listed before it has a strictly smaller time stamp and none
    listed after it has a greater one.  Among equal time stamps the first
    listed wins. *)
Theorem X16_latest_file_is_the_newest_match
    serial_num file_type is_cft entries best log :
  faillog.get_latest_file (Some entries) serial_num file_type is_cft
  = (Some best, log) →
  faillog.qualifies serial_num file_type is_cft best = true ∧
  faillog.file_ts (faillog.entry_name best) ≠ EmptyString ∧
  ∃ before after,
    entries = before ++ best :: after ∧
    (∀ e, e ∈ before →
          faillog.qualifies serial_num file_type is_cft e = true →
          String.ltb (faillog.file_ts (faillog.entry_name e))
            (faillog.file_ts (faillog.entry_name best)) = true) ∧
    (∀ e, e ∈ after →
          faillog.qualifies serial_num file_type is_cft e = true →
          String.ltb (faillog.file_ts (faillog.entry_name best))
            (faillog.file_ts (faillog.entry_name e)) = false).
Proof.
  unfold faillog.get_latest_file. intros [= Hbest _].
  pose proof (get_latest_file_inv serial_num file_type is_cft entries) as Hinv.
  unfold faillog.latest_inv in Hinv. rewrite Hbest in Hinv.
  destruct Hinv as (Hts & Hq & Hne & before & after & Hsplit & Hb & Ha).
  rewrite Hts in Hne, Hb, Ha. split; [done|]. split; [done|].
  by exists before, after.
Qed.

Lemma X16_witness :
  faillog.qualifies "SN1234" ".log" false log_of_jan_2 = true ∧
  faillog.file_ts (faillog.entry_name log_of_jan_2) = "20250102090000".
Proof.
  destruct (X16_latest_file_is_the_newest_match "SN1234" ".log" false
              [log_of_jan_1; log_of_jan_2; log_of_other_unit]
              log_of_jan_2 []) as (Hq & _).
  - reflexivity.
  - split; [exact Hq | reflexivity].
Defined.

(** X17.  [get_latest_file] returns [None] exactly when the path is not a
    directory or every qualifying entry carries an empty time stamp, which
    includes the directory without a qualifying entry.  A qualifying file
    whose fourth and fifth fields are both empty is never returned. *)
Theorem X17_no_latest_file serial_num file_type is_cft res_dir :
  (faillog.get_latest_file res_dir serial_num file_type is_cft).1 = None ↔
  res_dir = None ∨
  ∃ entries,
    res_dir = Some entries ∧
    ∀ e, e ∈ entries →
         faillog.qualifies serial_num file_type is_cft e = true →
         faillog.file_ts (faillog.entry_name e) = EmptyString.
Proof.
  destruct res_dir as [entries|]; [|split; [by left | done]].
  unfold faillog.get_latest_file. cbn [fst].
  pose proof (get_latest_file_inv serial_num file_type is_cft entries) as Hinv.
  unfold faillog.latest_inv in Hinv.
  destruct (foldl _ _ entries).1 as [best|].
  - split; [done|]. intros [? | (es & [= <-] & Hall)]; [done|]. exfalso.
    destruct Hinv as (Hts & Hq & Hne & before & after & Hsplit & _).
    apply Hne. rewrite Hts. apply Hall; [|done].
    rewrite Hsplit. apply elem_of_app. right. by left.
  - split; [|done]. intros _. right. exists entries. by destruct Hinv.
Qed.

Lemma ltb_false_antisym s1 s2 :
  String.ltb s1 s2 = false → String.ltb s2 s1 = false → s1 = s2.
Proof.
  unfold String.ltb. rewrite (String.compare_antisym s2 s1).
  destruct (String.compare s1 s2) eqn:Hc; try done.
  intros _ _. by apply String.compare_eq_iff.
Qed.

(** X18.  The order in which the directory lists its entries does not
    change the time stamp of the file returned (nor whether one is
    returned); it can only change which of several files with that same
    time stamp is taken. *)
Theorem X18_listing_order_does_not_change_the_time_stamp
    serial_num file_type is_cft entries entries' :
  entries ≡ₚ entries' →
  (fun e => faillog.file_ts (faillog.entry_name e)) <$>
    (faillog.get_latest_file (Some entries) serial_num file_type is_cft).1
  = (fun e => faillog.file_ts (faillog.entry_name e)) <$>
      (faillog.get_latest_file (Some entries') serial_num file_type is_cft).1.
Proof.
  intros Hperm.
  pose proof (latest_file_max serial_num file_type is_cft entries) as H1.
  pose proof (latest_file_max serial_num file_type is_cft entries') as H2.
  destruct (faillog.get_latest_file (Some entries) _ _ _).1 as [b1|];
    destruct (faillog.get_latest_file (Some entries') _ _ _).1 as [b2|];
    cbn [fmap option_fmap option_map]; [| | |done].
  - destruct H1 as (Hin1 & Hq1 & _ & Hmax1).
    destruct H2 as (Hin2 & Hq2 & _ & Hmax2).
    f_equal. apply ltb_false_antisym.
    + apply Hmax1; [by rewrite Hperm | done].
    + apply Hmax2; [by rewrite <- Hperm | done].
  - exfalso. destruct H1 as (Hin1 & Hq1 & Hne1 & _).
    apply Hne1, H2; [by rewrite <- Hperm | done].
  - exfalso. destruct H2 as (Hin2 & Hq2 & Hne2 & _).
    apply Hne2, H1; [by rewrite Hperm | done].
Qed.

Lemma X17_witness :
  (faillog.get_latest_file (Some [log_with_empty_stamp]) "SN1234" ".log"
     false).1 = None.
Proof.
  apply (X17_no_latest_file "SN1234" ".log" false
           (Some [log_with_empty_stamp])).
  right. exists [log_with_empty_stamp]. split; [reflexivity|].
  intros e He _. apply list_elem_of_singleton in He. subst e. reflexivity.
Defined.

Lemma X18_witness :
  (fun e => faillog.file_ts (faillog.entry_name e)) <$>
    (faillog.get_latest_file (Some [log_of_jan_1; log_of_jan_2])
       "SN1234" ".log" false).1
  = (fun e => faillog.file_ts (faillog.entry_name e)) <$>
      (faillog.get_latest_file (Some [log_of_jan_2; log_of_jan_1])
         "SN1234" ".log" false).1.
Proof.
  apply X18_listing_order_does_not_change_the_time_stamp.
  apply Permutation_swap.
Defined.




Example older_failure_log_is_sent_when_it_is_the_newest :
  (faillog.send_fail_log ascii_upper
     (Some [log_of_jan_1; log_of_other_unit])
     "SN1234" ".log" out_root false (fun _ => false) empty_fs).1
  = (true,
     mkFS (list_to_set (ancestors_or_self out_root))
       {[ out_root // "st1_run_SN1234_20250101_101500_a.log"
          := b "step 3: Test FAILED" ]}
       [(out_root // "st1_run_SN1234_20250101_101500_a.log",
         b "step 3: Test FAILED")]).
Proof. by vm_compute. Qed.

(** ** The command line and the older handlers *)



Lemma v2_dispatch_takes event submitted :
  V2Handler.dispatch event submitted
  = if v2_takes event then submitted ++ [Path_of (src_path event)]
    else submitted.
Proof.
  unfold V2Handler.dispatch, V2Handler.on_created, v2_takes.
  destruct (kind event); [|done..].
  destruct (is_directory event); [done|]. cbn [negb andb].
  by destruct (String.eqb _ _).
Qed.

(** X21.  The handler of Observer_v2 submits one task for every created
    event of a non-directory with a zip suffix, at once and as often as the
    event is delivered: there is no debounce and no stability probe.
    Modified and moved events never submit anything, so a zip file moved
    into a watched folder is not processed. *)
Theorem X21_v2_submits_once_per_created_event events : ∀ submitted,
  foldl (fun acc event => V2Handler.dispatch event acc) submitted events
  = submitted
    ++ map (fun event => Path_of (src_path event))
         (filter (fun event => Is_true (v2_takes event)) events).
Proof.
  induction events as [|event rest IH]; intros submitted; cbn [foldl].
  - by rewrite app_nil_r.
  - rewrite IH, v2_dispatch_takes, filter_cons.
    destruct (v2_takes event).
    + rewrite decide_True by exact I. cbn [map]. by rewrite <- app_assoc.
    + by rewrite decide_False by (by intros []).
Qed.

Example v2_duplicates_and_moves :
  foldl (fun acc event => V2Handler.dispatch event acc) []
    [run42_created; run42_created;
     mkEvent Moved false "/tmp/in.part" "/tmp/dir1/run43.zip";
     mkEvent Modified false "/tmp/dir1/run42.zip" EmptyString]
  = [run42; run42].
Proof. reflexivity. Qed.

(** X22.  [_process_zip] of Observer_v2 writes into the directory of the
    output root named after the folder the archive lies in, prints nothing,
    and has no [try]: whatever ends the generator escapes the task.  For an
    archive that is missing or not a zip container an exception escapes and
    nothing is written. *)
Theorem X22_v2_process_zip_lets_exceptions_escape disk root_out archive d :
  let r := Observer_v2._process_zip disk root_out archive d in
  let target_dir := root_out // name (parent archive) in
  stderr r.1 = stderr d ∧
  r.2 = raised (Observer_v2.extract_failed_logs disk archive target_dir
                  (tree d)) ∧
  (∃ new, written (tree r.1) = written (tree d) ++ new ∧
          Forall (fun w => parent w.1 = target_dir) new) ∧
  ((∀ members, disk !! archive ≠ Some (Zip members)) →
   r.2 ≠ None ∧ written (tree r.1) = written (tree d) ∧
   files (tree r.1) = files (tree d)).
Proof.
  intros r target_dir. subst r target_dir.
  unfold Observer_v2._process_zip. cbv zeta. cbn [fst snd tree stderr].
  split; [done|]. split; [done|]. unfold Observer_v2.extract_failed_logs.
  split.
  - destruct (disk !! archive) as [[|members]|] eqn:Hd.
    + destruct (extract_not_opened Observer_v2._contains_fail disk archive
                  (root_out // name (parent archive)) (tree d))
        as (Hw & _); [by rewrite Hd|].
      exists []. by rewrite app_nil_r.
    + destruct (extract_trace Observer_v2._contains_fail disk archive
                  (root_out // name (parent archive)) (tree d) members Hd)
        as (Hw & _).
      eexists. split; [exact Hw|].
      eapply Forall_impl; [apply artifacts_confined|].
      by intros w (m & _ & _ & _ & _ & Hpar & _).
    + destruct (extract_not_opened Observer_v2._contains_fail disk archive
                  (root_out // name (parent archive)) (tree d))
        as (Hw & _); [by rewrite Hd|].
      exists []. by rewrite app_nil_r.
  - intros Hnot.
    destruct (extract_not_opened Observer_v2._contains_fail disk archive
                (root_out // name (parent archive)) (tree d) Hnot)
      as (Hw & Hf & _ & Hr).
    rewrite Hr. by repeat split.
Qed.

Lemma X22_witness :
  (Observer_v2._process_zip (<[run42 := NotAZip]> ∅) out_root run42
     fresh_daemon).2 ≠ None.
Proof.
  destruct (X22_v2_process_zip_lets_exceptions_escape
              (<[run42 := NotAZip]> ∅) out_root run42 fresh_daemon)
    as (_ & _ & _ & Hnot).
  destruct Hnot as (Hesc & _); [|exact Hesc].
  intros members Hm. vm_compute in Hm. discriminate Hm.
Defined.

Example v2_writes_under_the_watch_folder_name :
  written (tree (Observer_v2._process_zip (disk_of [boot_log; env_log])
                   out_root run42 fresh_daemon).1)
  = [(Path_of "/var/log/dir1/boot.log", b "...FAIL: timeout...")].
Proof. reflexivity. Qed.



Lemma X15_witness :
  dispatch 30 (growing_until 0)
    (mkEvent Moved false "/tmp/dir1/run42.zip" "/tmp/dir1/run42.done")
    (init_state 1000000)
  = Some (init_state 1000000).
Proof.
  apply (X15_dispatch_judges_one_path 30 (growing_until 0)
           (mkEvent Moved false "/tmp/dir1/run42.zip" "/tmp/dir1/run42.done")
           (init_state 1000000)).
  right. intros Hz. apply suffix_zip_name in Hz. discriminate Hz.
Defined.


Example main_then_signal :
  match Monitor.main (fun p => p) None
          ["watch.py"; "/tmp/dir1"; "/tmp/dir2"; "/tmp/dir3"; "/tmp/dir4";
           "/var/log"; "ignored"] with
  | Monitor.Serving m =>
      map Monitor.state (Monitor.observers (Monitor._signal_handler m).2)
      = [Monitor.Joined; Monitor.Joined; Monitor.Joined; Monitor.Joined] ∧
      Monitor.max_workers m = 2%nat
  | Monitor.Exited _ _ => False
  end.
Proof. by vm_compute. Qed.
